(** * DressToImpress: round coordination, peer sessions and avatar sources

    A shallow embedding of the client logic of the party game:
    - [AvatarSources]: [extractAvatarSource] and [normalizeModelCandidate]
      (lib/avatarSources.ts);
    - [RatingScreen]: the turn order, the vote quorum and the advance /
      round-finish handlers of screens/RatingScreen.tsx (current version);
    - [LiveStream]: the peer-session bookkeeping of hooks/useLiveStream.ts.

    JavaScript strings are sequences of UTF-16 code units; they are modelled
    as lists of [N].  Numbers that the code only uses as integers (indices,
    lengths, counts, timestamps in milliseconds) are modelled in [Z]. *)

From Stdlib Require Import ZArith Lia Ascii String.
From stdpp Require Import base list gmap strings sorting.

Local Open Scope Z_scope.

(** ** JavaScript strings *)

Module JsString.

Definition jsstring := list N.

(** A literal of the source, written as a Rocq string. *)
Definition js (s : string) : jsstring :=
  (fun a => N_of_ascii a) <$> list_ascii_of_string s.

(** [String.prototype.startsWith]. *)
Fixpoint startsWith (prefix s : jsstring) : bool :=
  match prefix, s with
  | [], _ => true
  | _ :: _, [] => false
  | p :: prefix', c :: s' => (p =? c)%N && startsWith prefix' s'
  end.

(** WhiteSpace and LineTerminator code units, as stripped by
    [String.prototype.trim]. *)
Definition isWhiteSpace (c : N) : bool :=
  ((c =? 9) || (c =? 10) || (c =? 11) || (c =? 12) || (c =? 13) || (c =? 32)
   || (c =? 160) || (c =? 5760) || ((8192 <=? c) && (c <=? 8202))
   || (c =? 8232) || (c =? 8233) || (c =? 8239) || (c =? 8287)
   || (c =? 12288) || (c =? 65279))%N.

Fixpoint trimStart (s : jsstring) : jsstring :=
  match s with
  | [] => []
  | c :: s' => if isWhiteSpace c then trimStart s' else s
  end.

Definition trimEnd (s : jsstring) : jsstring := rev (trimStart (rev s)).

Definition trim (s : jsstring) : jsstring := trimEnd (trimStart s).

(** Case folding of a regular expression with the [i] flag and without the
    [u] flag, restricted to what matters against an ASCII pattern: a code
    unit outside ASCII never folds onto an ASCII one. *)
Definition canonicalize (c : N) : N :=
  if ((97 <=? c) && (c <=? 122))%N then (c - 32)%N else c.

Fixpoint startsWith_ci (prefix s : jsstring) : bool :=
  match prefix, s with
  | [], _ => true
  | _ :: _, [] => false
  | p :: prefix', c :: s' =>
      (canonicalize p =? canonicalize c)%N && startsWith_ci prefix' s'
  end.

(** [String.prototype.includes] for a one-unit needle. *)
Definition includes_unit (c : N) (s : jsstring) : bool :=
  existsb (fun d => (d =? c)%N) s.

(** The [<] of JavaScript on strings: lexicographic on code units. *)
Fixpoint ltb (a b : jsstring) : bool :=
  match a, b with
  | _, [] => false
  | [], _ :: _ => true
  | x :: a', y :: b' => (x <? y)%N || ((x =? y)%N && ltb a' b')
  end.

Definition eqb (a b : jsstring) : bool := bool_decide (a = b).

(** Truthiness of a string value. *)
Definition truthy (s : jsstring) : bool :=
  match s with [] => false | _ :: _ => true end.

End JsString.

Import JsString.

(** ** lib/avatarSources.ts *)

Module AvatarSources.

Definition MODEL_SOURCE_KEYS : list jsstring :=
  js <$> [ "glbUrl"; "glb"; "blobUrl"; "modelUrl"; "model"; "url"; "signedUrl";
           "signed_url"; "href"; "value"; "src"; "source"; "dataUrl";
           "data_url" ]%string.

(** The character class of [BASE64_MODEL_PATTERN = /^[A-Za-z0-9+/=]+$/]. *)
Definition isBase64Unit (c : N) : bool :=
  (((65 <=? c) && (c <=? 90)) || ((97 <=? c) && (c <=? 122))
   || ((48 <=? c) && (c <=? 57)) || (c =? 43) || (c =? 47) || (c =? 61))%N.

Definition BASE64_MODEL_PATTERN_test (s : jsstring) : bool :=
  truthy s && forallb isBase64Unit s.

Definition MAX_NESTING_DEPTH : nat := 4.

(** [/^data:image\//i.test]. *)
Definition data_image_test (s : jsstring) : bool :=
  startsWith_ci (js "data:image/") s.

(** [string | null]: [None] is [null]. *)
Definition normalizeModelCandidate (value : jsstring) : option jsstring :=
  let trimmed := trim value in
  if negb (truthy trimmed) then None
  else if startsWith (js "http://") trimmed || startsWith (js "https://") trimmed
  then Some trimmed
  else if startsWith (js "data:") trimmed then
    if data_image_test trimmed then None else Some trimmed
  else if (100 <? Z.of_nat (length trimmed))
          && BASE64_MODEL_PATTERN_test trimmed
          && negb (includes_unit 32 trimmed)
  then Some (js "data:model/gltf-binary;base64," ++ trimmed)
  else None.

(** Values of type [unknown].  Objects (arrays included) live in a heap, so
    that payloads may share or be cyclic; a field map holds the properties
    found by [key in record].  None of the keys looked up is a property of
    [Object.prototype] or [Array.prototype], so own properties decide.
    Numbers only matter through their type here. *)
Inductive value :=
| VUndefined
| VNull
| VBool (b : bool)
| VNumber (n : Z)
| VString (s : jsstring)
| VObject (ref : nat).

Definition heap := gmap nat (gmap jsstring value).

(** [!payload]. *)
Definition falsy (v : value) : bool :=
  match v with
  | VUndefined | VNull => true
  | VBool b => negb b
  | VNumber n => n =? 0
  | VString s => negb (truthy s)
  | VObject _ => false
  end.

(** A dangling reference reads as an object without properties. *)
Definition fields (h : heap) (ref : nat) : gmap jsstring value :=
  default ∅ (h !! ref).

Inductive outcome :=
| OutOfFuel
| Returned (r : option jsstring).

(** The [for (const key of MODEL_SOURCE_KEYS)] loop; [visit] is the recursive
    call on [record[key]]. *)
Fixpoint scanKeys (visit : value -> outcome) (record : gmap jsstring value)
    (keys : list jsstring) : outcome :=
  match keys with
  | [] => Returned None
  | key :: rest =>
      match record !! key with
      | None => scanKeys visit record rest
      | Some v =>
          match visit v with
          | OutOfFuel => OutOfFuel
          | Returned (Some candidate) =>
              if truthy candidate then Returned (Some candidate)
              else scanKeys visit record rest
          | Returned None => scanKeys visit record rest
          end
      end
  end.

Fixpoint extractAvatarSource_fuel (fuel : nat) (h : heap) (payload : value)
    (depth : nat) : outcome :=
  match fuel with
  | O => OutOfFuel
  | S fuel' =>
      if falsy payload || bool_decide (MAX_NESTING_DEPTH < depth)%nat
      then Returned None
      else match payload with
           | VString s => Returned (normalizeModelCandidate s)
           | VObject ref =>
               scanKeys (fun v => extractAvatarSource_fuel fuel' h v (S depth))
                        (fields h ref) MODEL_SOURCE_KEYS
           | _ => Returned None
           end
  end.

(** The exported function; the fuel covers every depth the cut-off lets
    through. *)
Definition extractAvatarSource (h : heap) (payload : value) (depth : nat)
    : option jsstring :=
  match extractAvatarSource_fuel (S (MAX_NESTING_DEPTH + 1 - depth)) h payload depth with
  | Returned r => r
  | OutOfFuel => None
  end.

(** What a returned source looks like: one of the three schemes, and not an
    image data URL. *)
Definition model_source (s : jsstring) : Prop :=
  (startsWith (js "http://") s || startsWith (js "https://") s
   || startsWith (js "data:") s) = true
  /\ data_image_test s = false.

(** *** Strings *)

Lemma startsWith_app (p s : jsstring) :
  startsWith p s = true <-> exists t, s = p ++ t.
Proof.
  revert s; induction p as [|c p IH]; intros s; simpl.
  - split; [intros _; by exists s | done].
  - destruct s as [|d s]; simpl.
    + split; [done | intros [t Ht]; discriminate].
    + rewrite andb_true_iff, N.eqb_eq, IH. split.
      * intros [-> [t ->]]. by exists t.
      * intros [t Ht]. injection Ht as -> ->. split; [done | by exists t].
Qed.

Lemma base64_not_space (c : N) : isBase64Unit c = true -> isWhiteSpace c = false.
Proof.
  unfold isBase64Unit, isWhiteSpace. intros H.
  repeat (apply orb_true_iff in H as [H|H]);
    repeat match goal with
    | H : (_ && _) = true |- _ => apply andb_true_iff in H as [? ?]
    | H : (_ <=? _)%N = true |- _ => apply N.leb_le in H
    | H : (_ =? _)%N = true |- _ => apply N.eqb_eq in H
    end;
    repeat (apply orb_false_iff; split);
    rewrite ?andb_false_iff, ?N.eqb_neq, ?N.leb_gt; lia.
Qed.

Lemma trimStart_id (s : jsstring) :
  match s with [] => True | c :: _ => isWhiteSpace c = false end ->
  trimStart s = s.
Proof. destruct s as [|c s]; simpl; [done | by intros ->]. Qed.

Lemma trim_base64 (s : jsstring) : forallb isBase64Unit s = true -> trim s = s.
Proof.
  intros H. unfold trim, trimEnd.
  assert (Hall : forall c, c ∈ s -> isWhiteSpace c = false).
  { intros c Hc. apply base64_not_space.
    rewrite forallb_forall in H. apply H. by apply list_elem_of_In. }
  rewrite (trimStart_id s).
  - rewrite (trimStart_id (rev s)); [apply rev_involutive |].
    destruct (rev s) as [|c r] eqn:E; [done |].
    apply Hall. apply list_elem_of_In, in_rev. rewrite E. by left.
  - destruct s as [|c s']; [done |]. apply Hall. by left.
Qed.

Lemma base64_no_scheme (p s : jsstring) :
  existsb (fun c => negb (isBase64Unit c)) p = true ->
  forallb isBase64Unit s = true -> startsWith p s = false.
Proof.
  intros Hp Hs. destruct (startsWith p s) eqn:E; [|done].
  apply startsWith_app in E as [t ->].
  rewrite forallb_app in Hs. apply andb_true_iff in Hs as [Hs _].
  apply existsb_exists in Hp as (c & Hc & Hn).
  rewrite forallb_forall in Hs. rewrite (Hs c Hc) in Hn. discriminate.
Qed.

Lemma base64_no_blank (s : jsstring) :
  forallb isBase64Unit s = true -> includes_unit 32 s = false.
Proof.
  intros Hs. unfold includes_unit. apply not_true_is_false. intros E.
  apply existsb_exists in E as (c & Hc & Heq). apply N.eqb_eq in Heq as ->.
  rewrite forallb_forall in Hs. specialize (Hs _ Hc). discriminate.
Qed.

(** *** [normalizeModelCandidate] *)

Lemma normalizeModelCandidate_source (v s : jsstring) :
  normalizeModelCandidate v = Some s -> model_source s.
Proof.
  unfold normalizeModelCandidate, model_source.
  generalize (trim v) as t. intros t H.
  destruct (truthy t); cbn [negb] in H; [|discriminate].
  destruct (startsWith (js "http://") t) eqn:E1; cbn [orb] in H.
  { injection H as <-. rewrite E1. split; [reflexivity |].
    apply startsWith_app in E1 as [u ->]. reflexivity. }
  destruct (startsWith (js "https://") t) eqn:E2.
  { injection H as <-. rewrite E2. split; [by rewrite orb_true_r |].
    apply startsWith_app in E2 as [u ->]. reflexivity. }
  destruct (startsWith (js "data:") t) eqn:E3.
  { destruct (data_image_test t) eqn:E4; [discriminate |].
    injection H as <-. rewrite E3, E4. by rewrite !orb_true_r. }
  destruct (_ && _ && _); [|discriminate].
  injection H as <-. split; reflexivity.
Qed.

Lemma normalizeModelCandidate_base64 (b : jsstring) :
  forallb isBase64Unit b = true -> (100 < length b)%nat ->
  normalizeModelCandidate b = Some (js "data:model/gltf-binary;base64," ++ b).
Proof.
  intros Hb Hlen. unfold normalizeModelCandidate.
  rewrite (trim_base64 b Hb).
  assert (Ht : truthy b = true) by (destruct b; [simpl in Hlen; lia | done]).
  rewrite Ht. simpl negb. cbv iota.
  rewrite !(base64_no_scheme _ b) by (done || reflexivity). simpl orb. cbv iota.
  unfold BASE64_MODEL_PATTERN_test. rewrite Ht, Hb, (base64_no_blank b Hb).
  replace (100 <? Z.of_nat (length b)) with true
    by (symmetry; apply Z.ltb_lt; lia).
  reflexivity.
Qed.

(** *** The key loop and the recursion *)

Lemma scanKeys_ext (f g : value -> outcome) record keys :
  (forall v, f v = g v) -> scanKeys f record keys = scanKeys g record keys.
Proof.
  intros E. induction keys as [|k keys IH]; simpl; [done |].
  destruct (record !! k); [|done]. rewrite E, IH. done.
Qed.

Lemma scanKeys_returns (P : jsstring -> Prop) visit record keys :
  (forall v, exists r, visit v = Returned r /\ forall s, r = Some s -> P s) ->
  exists r, scanKeys visit record keys = Returned r /\ forall s, r = Some s -> P s.
Proof.
  intros Hv. induction keys as [|k keys IH]; simpl.
  - exists None. by split.
  - destruct (record !! k) as [v|]; [|done].
    destruct (Hv v) as (r & -> & Hr). destruct r as [c|]; [|done].
    destruct (truthy c); [|done]. exists (Some c). by split.
Qed.

Lemma extractAvatarSource_fuel_S fuel h payload depth :
  extractAvatarSource_fuel (S fuel) h payload depth
  = if falsy payload || bool_decide (MAX_NESTING_DEPTH < depth)%nat
    then Returned None
    else match payload with
         | VString s => Returned (normalizeModelCandidate s)
         | VObject ref =>
             scanKeys (fun v => extractAvatarSource_fuel fuel h v (S depth))
                      (fields h ref) MODEL_SOURCE_KEYS
         | _ => Returned None
         end.
Proof. reflexivity. Qed.

Lemma extractAvatarSource_fuel_returns fuel h payload depth :
  (MAX_NESTING_DEPTH + 1 - depth < fuel)%nat ->
  exists r, extractAvatarSource_fuel fuel h payload depth = Returned r
            /\ forall s, r = Some s -> model_source s.
Proof.
  revert payload depth. induction fuel as [|fuel IH]; intros payload depth Hf.
  - lia.
  - rewrite extractAvatarSource_fuel_S.
    destruct (falsy payload || _) eqn:Hguard.
    + exists None. by split.
    + apply orb_false_iff in Hguard as [_ Hd].
      apply bool_decide_eq_false in Hd.
      destruct payload; try (exists None; by split).
      * eexists. split; [done |]. apply normalizeModelCandidate_source.
      * apply scanKeys_returns. intros v. apply IH.
        unfold MAX_NESTING_DEPTH in *. lia.
Qed.

Lemma extractAvatarSource_fuel_irrelevant fuel1 fuel2 h payload depth :
  (MAX_NESTING_DEPTH + 1 - depth < fuel1)%nat ->
  (MAX_NESTING_DEPTH + 1 - depth < fuel2)%nat ->
  extractAvatarSource_fuel fuel1 h payload depth
  = extractAvatarSource_fuel fuel2 h payload depth.
Proof.
  revert fuel2 payload depth.
  induction fuel1 as [|fuel1 IH]; intros [|fuel2] payload depth H1 H2; try lia.
  rewrite !extractAvatarSource_fuel_S.
  destruct (falsy payload || _) eqn:Hguard; [done |].
  apply orb_false_iff in Hguard as [_ Hd]. apply bool_decide_eq_false in Hd.
  destruct payload; try done.
  apply scanKeys_ext. intros v. apply IH; unfold MAX_NESTING_DEPTH in *; lia.
Qed.

(** C10: [extractAvatarSource] terminates on every payload, shared or cyclic
    (any fuel above the depth cut-off [MAX_NESTING_DEPTH = 4] returns, and
    returns the same result); what it returns is [null] or a string starting
    with [http://], [https://] or [data:] and never a [data:image/] URL; and a
    bare base64 payload of more than 100 characters comes back wrapped as
    [data:model/gltf-binary;base64,<payload>]. *)
Theorem extractAvatarSource_contract (h : heap) (payload : value) (depth : nat) :
  (forall fuel, (MAX_NESTING_DEPTH + 1 - depth < fuel)%nat ->
     extractAvatarSource_fuel fuel h payload depth
     = Returned (extractAvatarSource h payload depth))
  /\ (forall s, extractAvatarSource h payload depth = Some s -> model_source s)
  /\ (forall b, forallb isBase64Unit b = true -> (100 < length b)%nat ->
        extractAvatarSource h (VString b) 0
        = Some (js "data:model/gltf-binary;base64," ++ b)).
Proof.
  assert (Hrun : forall fuel, (MAX_NESTING_DEPTH + 1 - depth < fuel)%nat ->
     extractAvatarSource_fuel fuel h payload depth
     = Returned (extractAvatarSource h payload depth)).
  { intros fuel Hf. unfold extractAvatarSource.
    rewrite (extractAvatarSource_fuel_irrelevant
               (S (MAX_NESTING_DEPTH + 1 - depth)) fuel) by lia.
    destruct (extractAvatarSource_fuel_returns fuel h payload depth Hf)
      as (r & -> & _). done. }
  split; [exact Hrun |]. split.
  - intros s Hs.
    destruct (extractAvatarSource_fuel_returns
                (S (MAX_NESTING_DEPTH + 1 - depth)) h payload depth) as (r & Hr & Hsrc);
      [lia |].
    apply Hsrc. unfold extractAvatarSource in Hs. rewrite Hr in Hs. done.
  - intros b Hb Hlen.
    unfold extractAvatarSource. rewrite extractAvatarSource_fuel_S.
    assert (Ht : truthy b = true) by (destruct b; [simpl in Hlen; lia | done]).
    cbn [falsy]. rewrite Ht. cbn [negb orb].
    rewrite bool_decide_eq_false_2 by (unfold MAX_NESTING_DEPTH; lia).
    by rewrite normalizeModelCandidate_base64.
Qed.

(** The cases of the repository's tests. *)

Example returns_plain_https_urls :
  extractAvatarSource ∅ (VString (js "https://cdn.example.com/foo.glb")) 0
  = Some (js "https://cdn.example.com/foo.glb").
Proof. reflexivity. Qed.

Example walks_nested_keys :
  let h : heap :=
    {[ 0%nat := {[ js "source" := VObject 1 ]};
       1%nat := {[ js "glbUrl" := VString (js "https://example.com/model.glb") ]} ]} in
  extractAvatarSource h (VObject 0) 0 = Some (js "https://example.com/model.glb").
Proof. vm_compute. reflexivity. Qed.

Example ignores_image_thumbnails :
  extractAvatarSource ∅ (VString (js "data:image/png;base64,abc123")) 0 = None.
Proof. reflexivity. Qed.

Example stops_when_nothing_usable :
  let h : heap := {[ 0%nat := {[ js "invalid" := VNumber 42 ]} ]} in
  extractAvatarSource h (VObject 0) 0 = None.
Proof. vm_compute. reflexivity. Qed.

(** An object that is its own [url]: the depth cut-off ends the walk. *)
Example cyclic_payload_returns_null :
  let h : heap := {[ 0%nat := {[ js "url" := VObject 0 ]} ]} in
  extractAvatarSource h (VObject 0) 0 = None.
Proof. vm_compute. reflexivity. Qed.

(** The raw-blob case, on a shortened payload. *)
Definition SAMPLE_BASE64 : jsstring := js "qVGln2xgsznAAGSSewr668EeG18NaFDZyKBdSfvJyMHLntkdQo4/XvX6DxHmawmE5IP3paL9X/XU/j7wY4GlxBn7xGJjejSfPPs3f3Y/N6v+6mU9Q=".

Lemma extractAvatarSource_contract_witness :
  extractAvatarSource ∅ (VString SAMPLE_BASE64) 0
  = Some (js "data:model/gltf-binary;base64," ++ SAMPLE_BASE64).
Proof.
  apply (extractAvatarSource_contract ∅ VNull 0).
  - reflexivity.
  - vm_compute. lia.
Defined.

End AvatarSources.

(** ** lib/types.ts *)

Inductive GamePhase := lobby | customize | rating | scoreboard.

Module Game.
Record t := {
  id : jsstring;
  code : jsstring;
  host_id : jsstring;
  started : bool;
  round : Z;
  phase : GamePhase;
  customize_ends_at : option jsstring;
  current_player : option jsstring;
}.
End Game.

Module Player.
Record t := {
  id : jsstring;
  game_id : jsstring;
  user_id : jsstring;
  user_email : jsstring;
  score : Z;
  ready : bool;
  created_at : option jsstring;
}.
End Player.

(** ** Arrays *)

Module JsArray.
Section Array.
Context {A : Type}.

(** [Array.prototype.findIndex]: [-1] when no element passes. *)
Fixpoint findIndex_from (f : A -> bool) (l : list A) (i : Z) : Z :=
  match l with
  | [] => -1
  | x :: l' => if f x then i else findIndex_from f l' (i + 1)
  end.

Definition findIndex (f : A -> bool) (l : list A) : Z := findIndex_from f l 0.

(** [l[i]]: [None] is [undefined]. *)
Definition at_index (l : list A) (i : Z) : option A :=
  if i <? 0 then None else l !! Z.to_nat i.

(** [Array.prototype.sort] with a comparator.  The sort of the language is
    stable, so under a consistent comparator its result is the stable sorted
    arrangement, which a stable insertion sort computes: each element goes in
    front of the first element it does not compare greater than. *)
Fixpoint insert_sorted (cmp : A -> A -> Z) (x : A) (l : list A) : list A :=
  match l with
  | [] => [x]
  | y :: l' => if cmp x y <=? 0 then x :: l else y :: insert_sorted cmp x l'
  end.

Definition sort (cmp : A -> A -> Z) (l : list A) : list A :=
  foldr (insert_sorted cmp) [] l.

End Array.

(** Sorting with a comparator that subtracts keys, as the screens do. *)
Section SortByKey.
Context {A : Type} (key : A -> Z).

Definition by_key (x y : A) : Z := key x - key y.
Definition key_le (x y : A) : Prop := key x <= key y.

Lemma insert_sorted_perm (cmp : A -> A -> Z) x l : insert_sorted cmp x l ≡ₚ x :: l.
Proof.
  induction l as [|y l IH]; simpl; [done |].
  destruct (cmp x y <=? 0); [done |]. rewrite IH. apply Permutation_swap.
Qed.

Lemma sort_perm (cmp : A -> A -> Z) l : sort cmp l ≡ₚ l.
Proof.
  induction l as [|x l IH]; simpl; [done |].
  rewrite insert_sorted_perm. by rewrite IH.
Qed.

Lemma sort_length (cmp : A -> A -> Z) l : length (sort cmp l) = length l.
Proof. apply Permutation_length, sort_perm. Qed.

Lemma insert_sorted_sorted x l :
  StronglySorted key_le l -> StronglySorted key_le (insert_sorted by_key x l).
Proof.
  induction 1 as [|y l Hl IH Hy]; simpl.
  - repeat constructor.
  - destruct (by_key x y <=? 0) eqn:E.
    + apply Z.leb_le in E. unfold by_key in E.
      constructor; [by constructor |].
      constructor; [unfold key_le; lia |].
      eapply Forall_impl; [exact Hy |]. unfold key_le. intros z Hz. simpl in Hz. lia.
    + apply Z.leb_gt in E. unfold by_key in E.
      constructor; [exact IH |].
      rewrite insert_sorted_perm. constructor; [unfold key_le; lia | exact Hy].
Qed.

Lemma sort_sorted l : StronglySorted key_le (sort by_key l).
Proof.
  induction l as [|x l IH]; simpl; [constructor | by apply insert_sorted_sorted].
Qed.

(** Stability: the elements of one key keep the order they came in. *)
Lemma insert_sorted_class x l t :
  filter (fun y => key y = t) (insert_sorted by_key x l)
  = filter (fun y => key y = t) (x :: l).
Proof.
  induction l as [|y l IH]; simpl; [done |].
  destruct (by_key x y <=? 0) eqn:E; [done |].
  apply Z.leb_gt in E. unfold by_key in E.
  rewrite filter_cons, IH, !filter_cons.
  destruct (decide (key y = t)), (decide (key x = t)); try done. lia.
Qed.

Lemma sort_stable l t :
  filter (fun y => key y = t) (sort by_key l) = filter (fun y => key y = t) l.
Proof.
  induction l as [|x l IH]; simpl; [done |].
  rewrite insert_sorted_class, !filter_cons, IH. done.
Qed.

(** Where the keys tell the elements apart, the arrangement of the input does
    not matter. *)
Lemma sort_arrangement l1 l2 :
  l1 ≡ₚ l2 ->
  (forall x y, x ∈ l2 -> y ∈ l2 -> key x = key y -> x = y) ->
  sort by_key l1 = sort by_key l2.
Proof.
  intros Hp Hinj.
  apply (StronglySorted_unique_strong key_le); try apply sort_sorted.
  - intros x y Hx Hy Hxy Hyx. rewrite sort_perm in Hx, Hy. rewrite Hp in Hx.
    apply Hinj; [done | done |]. unfold key_le in *. lia.
  - by rewrite !sort_perm.
Qed.

End SortByKey.

(** The result depends on the comparator through the pairs of the array
    only. *)
Lemma insert_sorted_ext {A : Type} (cmp1 cmp2 : A -> A -> Z) (x : A) (l : list A) :
  (forall y, y ∈ l -> cmp1 x y = cmp2 x y) ->
  insert_sorted cmp1 x l = insert_sorted cmp2 x l.
Proof.
  induction l as [|y l IH]; intros H; simpl; [done |].
  rewrite (H y) by (by left). rewrite IH; [done |]. intros z Hz. apply H. by right.
Qed.

Lemma sort_ext {A : Type} (cmp1 cmp2 : A -> A -> Z) (l : list A) :
  (forall x y, x ∈ l -> y ∈ l -> cmp1 x y = cmp2 x y) ->
  sort cmp1 l = sort cmp2 l.
Proof.
  induction l as [|x l IH]; intros H; simpl; [done |].
  rewrite IH by (intros y z Hy Hz; apply H; by right).
  apply insert_sorted_ext. intros y Hy. rewrite sort_perm in Hy.
  apply H; [by left | by right].
Qed.

End JsArray.

(** ** screens/RatingScreen.tsx *)

Module RatingScreen.

Definition PRESENTATION_DURATION_SECONDS : Z := 20.

(** *** Requests, replies and local actions *)

(** The body of a [supabase.from('games').update(...)]: the fields it sets. *)
Record GamePatch := {
  set_phase : option GamePhase;
  set_current_player : option (option jsstring);
}.

(** The operations a handler awaits. *)
Inductive Call :=
| ComputeScores (game_id : jsstring) (round : Z)
| SelectStandings (game_id : jsstring)
| UpdateGame (game_id : jsstring) (patch : GamePatch)
| CountVotes (game_id : jsstring) (round : Z) (target_id : jsstring)
| SubmitVote (game_id : jsstring) (round : Z) (target_id : jsstring) (stars : Z).

(** What an awaited operation settles to: the promise rejects, or it is
    fulfilled with a response of which the code reads [error], [count] and
    [data]. *)
Record Response := {
  error : bool;
  count : option Z;
  data : option (list Player.t);
}.

Inductive Reply :=
| Rejected
| Fulfilled (resp : Response).

Definition ok : Reply := Fulfilled {| error := false; count := None; data := None |}.

(** Local actions: React state setters, timers, the navigation callback, the
    bus, the console and alerts. *)
Inductive Effect :=
| SetCurrentPlayerId (p : option jsstring)
| SetCurrentGame_current_player (p : option jsstring)
| SetVoteCountdown (n : Z)
| ClearCountdown
| StartCountdown
| ClearVotePoll
| SetCurrentTargetVoteCount (n : Z)
| SetHasVoted (b : bool)
| SetSelectedStars (n : Z)
| SetVoteModalVisible (b : bool)
| OnShowScoreboard (game : Game.t) (standings : list Player.t)
| SendScoreboard (game_id : jsstring) (round : Z) (standings : list Player.t)
| ConsoleWarn (tag : jsstring)
| AlertAlert (title : jsstring).

(** The two refs that guard re-entrancy. *)
Record Refs := {
  advancingRef : bool;
  finishedRef : bool;
}.

(** *** Asynchronous handlers

    A handler runs on the single thread of the client until it awaits; what
    follows the [await] resumes when the awaited operation settles.  [Void]
    is a call of an async function whose promise is not awaited: it runs up
    to its first [await] inside the caller.  [Throw] is an exception that
    nothing in the handler catches: the handler ends there and its promise
    rejects. *)
Inductive Prog :=
| Return
| ReadRefs (k : Refs -> Prog)
| WriteAdvancing (b : bool) (k : Prog)
| WriteFinished (b : bool) (k : Prog)
| Do (e : Effect) (k : Prog)
| Await (c : Call) (k : Reply -> Prog)
| Void (p : Prog) (k : Prog)
| Throw (error : jsstring).

Record Task := {
  awaiting : Call;
  resume : Reply -> Prog;
}.

Inductive Item :=
| Did (e : Effect)
| Issued (c : Call)
| Settled (c : Call) (r : Reply)
| Threw (error : jsstring).

(** A client with its view of the game row of the Shared Game Store. *)
Record World := {
  refs : Refs;
  store : Game.t;
  pending : list Task;
  trace : list Item;
}.

Definition with_refs (w : World) (r : Refs) : World :=
  {| refs := r; store := store w; pending := pending w; trace := trace w |}.

Definition log (w : World) (i : Item) : World :=
  {| refs := refs w; store := store w; pending := pending w;
     trace := trace w ++ [i] |}.

Definition suspend (w : World) (t : Task) : World :=
  {| refs := refs w; store := store w; pending := pending w ++ [t];
     trace := trace w ++ [Issued (awaiting t)] |}.

Fixpoint run_sync (p : Prog) (w : World) : World :=
  match p with
  | Return => w
  | ReadRefs k => run_sync (k (refs w)) w
  | WriteAdvancing b k =>
      run_sync k (with_refs w {| advancingRef := b; finishedRef := finishedRef (refs w) |})
  | WriteFinished b k =>
      run_sync k (with_refs w {| advancingRef := advancingRef (refs w); finishedRef := b |})
  | Do e k => run_sync k (log w (Did e))
  | Await c k => suspend w {| awaiting := c; resume := k |}
  | Void p' k => run_sync k (run_sync p' w)
  | Throw error => log w (Threw error)
  end.

Definition apply_patch (patch : GamePatch) (g : Game.t) : Game.t :=
  {| Game.id := Game.id g; Game.code := Game.code g; Game.host_id := Game.host_id g;
     Game.started := Game.started g; Game.round := Game.round g;
     Game.phase := default (Game.phase g) (set_phase patch);
     Game.customize_ends_at := Game.customize_ends_at g;
     Game.current_player := default (Game.current_player g) (set_current_player patch) |}.

(** The game row after a request settles: an update that is fulfilled
    without error has been applied to the row it filters on. *)
Definition commit (c : Call) (r : Reply) (g : Game.t) : Game.t :=
  match c, r with
  | UpdateGame gid patch, Fulfilled resp =>
      if negb (error resp) && eqb gid (Game.id g) then apply_patch patch g else g
  | _, _ => g
  end.

Definition settle (i : nat) (r : Reply) (w : World) : World :=
  match pending w !! i with
  | None => w
  | Some t =>
      run_sync (resume t r)
        {| refs := refs w;
           store := commit (awaiting t) r (store w);
           pending := delete i (pending w);
           trace := trace w ++ [Settled (awaiting t) r] |}
  end.

Inductive Event :=
| Invoke (p : Prog)
| Settle (i : nat) (r : Reply).

Definition step (w : World) (e : Event) : World :=
  match e with
  | Invoke p => run_sync p w
  | Settle i r => settle i r w
  end.

Definition run (evs : list Event) (w : World) : World := fold_left step evs w.

Definition fresh (g : Game.t) : World :=
  {| refs := {| advancingRef := false; finishedRef := false |};
     store := g; pending := []; trace := [] |}.

(** *** One render of the component

    The handlers are closures over the props and the state of the render that
    created them. *)
Record Render := {
  user_id : jsstring;
  game : Game.t;
  players : list Player.t;
  currentGame : Game.t;
  currentPlayerId : option jsstring;
  hasVoted : bool;
  selectedStars : Z;
}.

Definition truthy_id (p : option jsstring) : bool :=
  match p with Some s => truthy s | None => false end.

Definition isHost (r : Render) : bool :=
  eqb (Game.host_id (currentGame r)) (user_id r).

Section Handlers.

(** [Date.parse]: [None] is the [NaN] it gives for a string that is no
    date. *)
Variable Date_parse : jsstring -> option Z.

(** [left.created_at ? Date.parse(left.created_at) : 0]. *)
Definition created (p : Player.t) : option Z :=
  match Player.created_at p with
  | Some s => if truthy s then Date_parse s else Some 0
  | None => Some 0
  end.

(** [leftCreated - rightCreated], which is [NaN] as soon as one side is. *)
Definition created_difference (left right : Player.t) : option Z :=
  l ← created left; r ← created right; Some (l - r).

(** The sort takes a [NaN] from its comparator for [+0].  Where a time does
    not parse the comparator is therefore not a consistent one, and the
    language leaves the order to the implementation; what is proved of the
    order below is proved for times that parse. *)
Definition sortedPlayers (ps : list Player.t) : list Player.t :=
  JsArray.sort (fun left right => default 0 (created_difference left right)) ps.

(** The player's time parses. *)
Definition dated (p : Player.t) : Prop := is_Some (created p).

(** The time of a player whose time parses. *)
Definition joined (p : Player.t) : Z := default 0 (created p).

Definition expectedVotes (ps : list Player.t) : Z :=
  Z.max (Z.of_nat (length (sortedPlayers ps)) - 1) 0.

Definition is_current (r : Render) (player : Player.t) : bool :=
  bool_decide (Some (Player.id player) = currentPlayerId r).

Definition currentPlayer (r : Render) : option Player.t :=
  if truthy_id (currentPlayerId r)
  then List.find (is_current r) (sortedPlayers (players r))
  else None.

Definition currentIndex (r : Render) : Z :=
  JsArray.findIndex (is_current r) (sortedPlayers (players r)).

Definition isLastPlayer (r : Render) : bool :=
  (currentIndex r >=? 0)
  && (currentIndex r =? Z.of_nat (length (sortedPlayers (players r))) - 1).

Definition resetCountdown (k : Prog) : Prog :=
  Do ClearCountdown (Do (SetVoteCountdown PRESENTATION_DURATION_SECONDS)
    (Do StartCountdown k)).

Definition stopTimers (k : Prog) : Prog :=
  Do ClearCountdown (Do ClearVotePoll k).

Definition updateCurrentPlayer (r : Render) (playerId : option jsstring) : Call :=
  UpdateGame (Game.id (game r))
    {| set_phase := None; set_current_player := Some playerId |}.

Definition setCurrentPlayerLocal (playerId : option jsstring) (k : Prog) : Prog :=
  Do (SetCurrentPlayerId playerId) (Do (SetCurrentGame_current_player playerId) k).

Definition scoreboard_patch : GamePatch :=
  {| set_phase := Some scoreboard; set_current_player := Some None |}.

(** The socket client of [lib/streaming/socketClient.ts] has no method
    [sendScoreboard]: the call of it is a call of [undefined]. *)
Definition sendScoreboard_is_not_a_function : jsstring :=
  js "streamingSocket.sendScoreboard is not a function".

(** [handleFinishRound], from its last part to its first.  The standings are
    an array, hence truthy, and the host goes on to the call of
    [streamingSocket.sendScoreboard], which throws before anything is
    sent. *)
Definition finish_show (r : Render) (standings : option (list Player.t)) : Prog :=
  WriteAdvancing false
    (let finalStandings := default (players r) standings in
     Do (OnShowScoreboard (currentGame r) finalStandings)
       (if isHost r
        then Throw sendScoreboard_is_not_a_function
        else Return)).

Definition after_flip (r : Render) (standings : option (list Player.t))
    (reply : Reply) : Prog :=
  match reply with
  | Rejected => Do (ConsoleWarn (js "phase update error")) (finish_show r standings)
  | Fulfilled _ => finish_show r standings
  end.

Definition finish_flip (r : Render) (standings : option (list Player.t)) : Prog :=
  Await (UpdateGame (Game.id (game r)) scoreboard_patch) (after_flip r standings).

Definition after_standings (r : Render) (reply : Reply) : Prog :=
  match reply with
  | Rejected => Do (ConsoleWarn (js "standings fetch error")) (finish_flip r None)
  | Fulfilled resp => finish_flip r (data resp)
  end.

Definition finish_standings (r : Render) : Prog :=
  Await (SelectStandings (Game.id (game r))) (after_standings r).

Definition after_scores (r : Render) (reply : Reply) : Prog :=
  match reply with
  | Rejected => Do (ConsoleWarn (js "computeScores error")) (finish_standings r)
  | Fulfilled _ => finish_standings r
  end.

Definition handleFinishRound (r : Render) : Prog :=
  ReadRefs (fun refs =>
    if finishedRef refs then Return
    else
      WriteFinished true
        (stopTimers
           (Await (ComputeScores (Game.id (game r)) (Game.round (game r)))
                  (after_scores r)))).

(** The [.then] of the write that [advanceToNextPlayer] does not await. *)
Definition after_write (reply : Reply) : Prog :=
  match reply with
  | Rejected => Return
  | Fulfilled resp =>
      if error resp
      then Do (ConsoleWarn (js "Failed to update current player on backend")) Return
      else Return
  end.

(** [await handleFinishRound(); return;] ends the handler, so the awaited
    call is its tail.  The branch without a next player is not reachable,
    since [nextIndex] is within the array there. *)
Definition advanceToNextPlayer (r : Render) : Prog :=
  ReadRefs (fun refs =>
    if advancingRef refs then Return
    else
      WriteAdvancing true
        (let currentIndex := currentIndex r in
         let nextIndex := if currentIndex >=? 0 then currentIndex + 1 else 0 in
         if nextIndex >=? Z.of_nat (length (sortedPlayers (players r)))
         then handleFinishRound r
         else
           match JsArray.at_index (sortedPlayers (players r)) nextIndex with
           | None => Return
           | Some nextPlayer =>
               setCurrentPlayerLocal (Some (Player.id nextPlayer))
                 (resetCountdown
                    (Void (Await (updateCurrentPlayer r (Some (Player.id nextPlayer)))
                                 after_write)
                       (WriteAdvancing false Return)))
           end)).

Definition after_count (r : Render) (reply : Reply) : Prog :=
  match reply with
  | Rejected => Return
  | Fulfilled resp =>
      if error resp then Do (ConsoleWarn (js "vote count refresh failed")) Return
      else
        let total := default 0 (count resp) in
        Do (SetCurrentTargetVoteCount total)
          (ReadRefs (fun refs =>
             if (total >=? expectedVotes (players r))
                && negb (advancingRef refs) && negb (finishedRef refs)
             then
               if isLastPlayer r then handleFinishRound r
               else Void (advanceToNextPlayer r) Return
             else Return))
  end.

Definition refreshVoteCountAndMaybeAdvance (r : Render) : Prog :=
  match currentPlayerId r with
  | None => Return
  | Some target =>
      if negb (truthy target) then Return
      else
        ReadRefs (fun refs =>
          if finishedRef refs then Return
          else Await (CountVotes (Game.id (game r)) (Game.round (game r)) target)
                     (after_count r))
  end.

(** The body of the countdown interval when [previous <= 1]. *)
Definition countdownExpired (r : Render) : Prog :=
  Do ClearCountdown
    (ReadRefs (fun refs =>
       if truthy_id (currentPlayerId r)
          && negb (advancingRef refs) && negb (finishedRef refs)
       then
         if isLastPlayer r
         then Void (handleFinishRound r) (Do (SetVoteCountdown 0) Return)
         else Void (advanceToNextPlayer r) (Do (SetVoteCountdown 0) Return)
       else Do (SetVoteCountdown 0) Return)).


Definition after_submit (r : Render) (reply : Reply) : Prog :=
  match reply with
  | Rejected => Do (SetHasVoted false) (Do (ConsoleWarn (js "submit vote failed")) Return)
  | Fulfilled _ => Void (refreshVoteCountAndMaybeAdvance r) Return
  end.

Definition submitCurrentVote (r : Render) : Prog :=
  ReadRefs (fun refs =>
    match currentPlayer r with
    | None => Return
    | Some target =>
        if (selectedStars r =? 0) || finishedRef refs then Return
        else
          Do (SetHasVoted true)
            (Await (SubmitVote (Game.id (game r)) (Game.round (game r))
                               (Player.id target) (selectedStars r))
                   (after_submit r))
    end).

End Handlers.

(** *** The state of the next render *)

(** [hasVoted] and [selectedStars] once the queued setters have run. *)
Fixpoint next_hasVoted (tr : list Item) (current : bool) : bool :=
  match tr with
  | [] => current
  | Did (SetHasVoted b) :: tr' => next_hasVoted tr' b
  | _ :: tr' => next_hasVoted tr' current
  end.

Fixpoint next_selectedStars (tr : list Item) (current : Z) : Z :=
  match tr with
  | [] => current
  | Did (SetSelectedStars n) :: tr' => next_selectedStars tr' n
  | _ :: tr' => next_selectedStars tr' current
  end.

(** *** What a trace shows *)

Definition is_scoring (i : Item) : bool :=
  match i with Issued (ComputeScores _ _) => true | _ => false end.

Definition is_flip (i : Item) : bool :=
  match i with
  | Issued (UpdateGame _ patch) =>
      match set_phase patch with Some scoreboard => true | _ => false end
  | _ => false
  end.

Definition is_broadcast (i : Item) : bool :=
  match i with Did (SendScoreboard _ _ _) => true | _ => false end.

(** A move to a presenter: the local state is set to a player. *)
Definition is_advance (i : Item) : bool :=
  match i with Did (SetCurrentPlayerId (Some _)) => true | _ => false end.

(** A write of [current_player] to the store that names a player. *)
Definition is_presenter_write (i : Item) : bool :=
  match i with
  | Issued (UpdateGame _ patch) =>
      match set_current_player patch with Some (Some _) => true | _ => false end
  | _ => false
  end.

(** Shown to the user, as opposed to logged. *)
Definition is_alert (i : Item) : bool :=
  match i with Did (AlertAlert _) => true | _ => false end.

Definition is_warning (i : Item) : bool :=
  match i with Did (ConsoleWarn _) => true | _ => false end.

Definition occurrences (f : Item -> bool) (tr : list Item) : nat :=
  length (filter (fun i => f i = true) tr).

(** *** The turn order as the data model words it

    Ascending [created_at], ties broken by comparing the ids as strings. *)
Definition turn_order_cmp (parse : jsstring -> option Z) (left right : Player.t) : Z :=
  if joined parse left =? joined parse right
  then if ltb (Player.id left) (Player.id right) then -1
       else if ltb (Player.id right) (Player.id left) then 1 else 0
  else joined parse left - joined parse right.

Definition turn_order_by_created_then_id (parse : jsstring -> option Z)
    (ps : list Player.t) : list Player.t :=
  JsArray.sort (turn_order_cmp parse) ps.

(** *** A game of three, joined one second apart, and two players who joined
    in the same instant *)

Definition t0 : jsstring := js "1970-01-01T00:00:00.000Z".
Definition t1 : jsstring := js "1970-01-01T00:00:01.000Z".
Definition t2 : jsstring := js "1970-01-01T00:00:02.000Z".

(** [Date.parse] on the three timestamps above, and on strings that are no
    dates. *)
Definition parse_sample (s : jsstring) : option Z :=
  if eqb s t0 then Some 0
  else if eqb s t1 then Some 1000
  else if eqb s t2 then Some 2000
  else None.

Definition player (name : string) (joined : option jsstring) : Player.t :=
  {| Player.id := js name; Player.game_id := js "g1";
     Player.user_id := js "user-" ++ js name;
     Player.user_email := js name ++ js "@example.com";
     Player.score := 0; Player.ready := true; Player.created_at := joined |}.

Definition P0 : Player.t := player "p0" (Some t0).
Definition P1 : Player.t := player "p1" (Some t1).
Definition P2 : Player.t := player "p2" (Some t2).
Definition PA : Player.t := player "a" (Some t0).
Definition PB : Player.t := player "b" (Some t0).

(** A player whose [created_at] is no date. *)
Definition PX : Player.t := player "x" (Some (js "just now")).

Definition game1 : Game.t :=
  {| Game.id := js "g1"; Game.code := js "ABCD"; Game.host_id := js "user-p0";
     Game.started := true; Game.round := 1; Game.phase := rating;
     Game.customize_ends_at := None; Game.current_player := Some (js "p0") |}.

(** The render of the host while [current] presents. *)
Definition render_of (ps : list Player.t) (current : option jsstring) (stars : Z)
    : Render :=
  {| user_id := js "user-p0"; game := game1; players := ps; currentGame := game1;
     currentPlayerId := current; hasVoted := false; selectedStars := stars |}.

Definition counted (n : Z) : Reply :=
  Fulfilled {| error := false; count := Some n; data := None |}.

(** *** Turn order and quorum *)

Example turn_order_of_three :
  sortedPlayers parse_sample [P2; P0; P1] = [P0; P1; P2]
  /\ expectedVotes parse_sample [P2; P0; P1] = 2.
Proof. split; reflexivity. Qed.

Section TurnOrder.
Variable Date_parse : jsstring -> option Z.

Lemma sortedPlayers_perm ps : sortedPlayers Date_parse ps ≡ₚ ps.
Proof. apply JsArray.sort_perm. Qed.

Lemma sortedPlayers_length ps : length (sortedPlayers Date_parse ps) = length ps.
Proof. apply JsArray.sort_length. Qed.

(** Where every time parses the comparator subtracts the times. *)
Lemma sortedPlayers_by_joined ps :
  Forall (dated Date_parse) ps ->
  sortedPlayers Date_parse ps = JsArray.sort (JsArray.by_key (joined Date_parse)) ps.
Proof.
  intros Hd. apply JsArray.sort_ext. intros p q Hp Hq.
  rewrite Forall_forall in Hd.
  destruct (Hd p Hp) as [a Ha], (Hd q Hq) as [b Hb].
  unfold created_difference, JsArray.by_key, joined. by rewrite Ha, Hb.
Qed.

(** C3, as the code has it: for players whose [created_at] parses (or is
    absent, which counts as 0) the turn order is the players array sorted by
    the parsed time and nothing else.  It rearranges the array, is ascending
    in that time, and keeps players of equal time in the order of the array:
    no id decides a tie.  Clients whose arrays hold the same players in
    different orders derive the same turn order when the parsed times tell
    the players apart. *)
Theorem sortedPlayers_stable_by_created (ps : list Player.t) :
  Forall (dated Date_parse) ps ->
  sortedPlayers Date_parse ps ≡ₚ ps
  /\ StronglySorted (fun p q => joined Date_parse p <= joined Date_parse q)
       (sortedPlayers Date_parse ps)
  /\ (forall t, filter (fun p => joined Date_parse p = t) (sortedPlayers Date_parse ps)
                = filter (fun p => joined Date_parse p = t) ps)
  /\ (forall qs, qs ≡ₚ ps ->
        (forall p q, p ∈ ps -> q ∈ ps ->
                     joined Date_parse p = joined Date_parse q -> p = q) ->
        sortedPlayers Date_parse qs = sortedPlayers Date_parse ps).
Proof.
  intros Hd. split; [apply sortedPlayers_perm |].
  rewrite (sortedPlayers_by_joined ps Hd). split; [apply JsArray.sort_sorted |].
  split.
  - intros t. apply (JsArray.sort_stable (joined Date_parse)).
  - intros qs Hp Hinj. rewrite sortedPlayers_by_joined by (by rewrite Hp).
    by apply (JsArray.sort_arrangement (joined Date_parse)).
Qed.

(** C4: the quorum is [max(N - 1, 0)] for the [N] players of the game. *)
Theorem expectedVotes_quorum (ps : list Player.t) :
  expectedVotes Date_parse ps = Z.max (Z.of_nat (length ps) - 1) 0.
Proof. unfold expectedVotes. by rewrite sortedPlayers_length. Qed.

End TurnOrder.

Lemma sortedPlayers_stable_by_created_witness :
  sortedPlayers parse_sample [P0; P1; P2] = sortedPlayers parse_sample [P2; P0; P1].
Proof.
  apply (sortedPlayers_stable_by_created parse_sample [P2; P0; P1]).
  - repeat constructor; by eexists.
  - symmetry. apply (Permutation_cons_append [P0; P1] P2).
  - intros p q Hp Hq. apply list_elem_of_In in Hp, Hq. simpl in Hp, Hq.
    destruct Hp as [<- | [<- | [<- | []]]], Hq as [<- | [<- | [<- | []]]];
      vm_compute; congruence.
Defined.

(** C3 as the data model words it fails: two players who joined in the same
    instant stay in array order, [b] before [a], where the tie-break on ids
    puts [a] first; and the client that holds them the other way round derives
    the other order. *)
Lemma sortedPlayers_no_id_tie_break :
  sortedPlayers parse_sample [PB; PA] <> turn_order_by_created_then_id parse_sample [PB; PA]
  /\ sortedPlayers parse_sample [PB; PA] <> sortedPlayers parse_sample [PA; PB].
Proof. split; vm_compute; congruence. Qed.

(** A [created_at] that is no date: the comparator gives [NaN] against it,
    the array stays as it is, and the player who joined last presents
    first. *)
Example unparseable_time_breaks_order :
  sortedPlayers parse_sample [P2; PX; P0] = [P2; PX; P0]
  /\ ~ dated parse_sample PX.
Proof. split; [reflexivity |]. by intros [t Ht]. Qed.

(** *** Traces *)

Create HintDb exec.
#[local] Hint Unfold settle log suspend with_refs fresh step run : exec.

(** Runs the handlers of the goal as far as the terms allow. *)
Ltac exec := repeat (progress (autounfold with exec; simpl)).

Lemma occurrences_snoc f tr i :
  occurrences f (tr ++ [i]) = (occurrences f tr + (if f i then 1 else 0))%nat.
Proof.
  unfold occurrences. rewrite filter_app, length_app. f_equal.
  rewrite filter_cons, filter_nil. destruct (f i); by case_decide.
Qed.

(** *** The round-finish guard *)

Section RoundFinish.

(** How far the one round-finish of a client has come. *)
Inductive stage :=
| Idle
| Scoring (r : Render)
| Standings (r : Render)
| Flipping (r : Render) (standings : option (list Player.t))
| Shown.

Definition stage_pending (s : stage) : list Task :=
  match s with
  | Idle | Shown => []
  | Scoring r =>
      [ {| awaiting := ComputeScores (Game.id (game r)) (Game.round (game r));
           resume := after_scores r |} ]
  | Standings r =>
      [ {| awaiting := SelectStandings (Game.id (game r));
           resume := after_standings r |} ]
  | Flipping r standings =>
      [ {| awaiting := UpdateGame (Game.id (game r)) scoreboard_patch;
           resume := after_flip r standings |} ]
  end.

Definition scored (s : stage) : nat := match s with Idle => 0 | _ => 1 end.
Definition flipped (s : stage) : nat :=
  match s with Flipping _ _ | Shown => 1 | _ => 0 end.
Definition cast (s : stage) : nat := match s with Shown => 1 | _ => 0 end.

Record in_stage (s : stage) (w : World) : Prop := {
  stage_tasks : pending w = stage_pending s;
  stage_guard : s <> Idle -> finishedRef (refs w) = true;
  stage_scored : occurrences is_scoring (trace w) = scored s;
  stage_flipped : occurrences is_flip (trace w) = flipped s;
  stage_cast : (occurrences is_broadcast (trace w) <= cast s)%nat;
}.

(** An invocation of [handleFinishRound], from any render, or the settling
    of a pending request with any reply. *)
Definition finish_event (e : Event) : Prop :=
  match e with
  | Invoke p => exists r, p = handleFinishRound r
  | Settle _ _ => True
  end.

Lemma handleFinishRound_guarded r w :
  finishedRef (refs w) = true -> run_sync (handleFinishRound r) w = w.
Proof. intros H. simpl. by rewrite H. Qed.

Lemma handleFinishRound_sets_guard r w :
  finishedRef (refs (run_sync (handleFinishRound r) w)) = true.
Proof. simpl. by destruct (finishedRef (refs w)) eqn:E. Qed.

Lemma settle_single t i reply w :
  pending w = [t] ->
  settle i reply w
  = match i with
    | O => run_sync (resume t reply)
             {| refs := refs w; store := commit (awaiting t) reply (store w);
                pending := []; trace := trace w ++ [Settled (awaiting t) reply] |}
    | S _ => w
    end.
Proof. intros H. unfold settle. rewrite H. by destruct i. Qed.

Lemma finish_step s w e :
  in_stage s w -> finish_event e -> exists s', in_stage s' (step w e).
Proof.
  intros [Hp Hg Hs Hf Hc] He. destruct e as [p | i reply].
  - destruct He as [r ->]. simpl.
    destruct (finishedRef (refs w)) eqn:E.
    + exists s. by split.
    + assert (s = Idle) as -> by (destruct s; try done; by specialize (Hg ltac:(done))).
      exists (Scoring r). simpl in *.
      split; simpl; rewrite ?Hp, ?occurrences_snoc, ?Hs, ?Hf; simpl; try done; lia.
  - simpl. destruct s as [ | r | r | r st | ]; simpl in Hp, Hs, Hf, Hc.
    + exists Idle. unfold settle. rewrite Hp. by split.
    + rewrite (settle_single _ _ _ _ Hp). destruct i; [|by exists (Scoring r)].
      exists (Standings r). specialize (Hg ltac:(done)).
      destruct reply; simpl;
        (split; simpl; rewrite ?occurrences_snoc, ?Hs, ?Hf; simpl; try done; lia).
    + rewrite (settle_single _ _ _ _ Hp). destruct i; [|by exists (Standings r)].
      specialize (Hg ltac:(done)).
      destruct reply as [|resp]; simpl;
        [exists (Flipping r None) | exists (Flipping r (data resp))];
        (split; simpl; rewrite ?occurrences_snoc, ?Hs, ?Hf; simpl; try done; lia).
    + rewrite (settle_single _ _ _ _ Hp). destruct i; [|by exists (Flipping r st)].
      exists Shown. specialize (Hg ltac:(done)).
      destruct reply; simpl; destruct (isHost r); simpl;
        (split; simpl; rewrite ?occurrences_snoc, ?Hs, ?Hf; simpl; try done; lia).
    + exists Shown. unfold settle. rewrite Hp. by split.
Qed.

Lemma finish_run evs : forall s w,
  in_stage s w -> Forall finish_event evs -> exists s', in_stage s' (run evs w).
Proof.
  induction evs as [|e evs IH]; intros s w Hw Hevs; simpl.
  - by exists s.
  - apply Forall_cons in Hevs as [He Hevs].
    destruct (finish_step s w e Hw He) as [s' Hs']. by apply (IH s').
Qed.

(** C2: on a client where no round-finish is under way, any number of
    invocations of [handleFinishRound], interleaved in any way with the
    settling of its requests, issue the scoring computation, the phase flip to
    [scoreboard] and the standings broadcast at most once each; the guard is
    set by the time the first request is issued, and an invocation that finds
    it set changes nothing. *)
Theorem handleFinishRound_single_shot (w0 : World) (evs : list Event) :
  pending w0 = [] ->
  trace w0 = [] ->
  Forall finish_event evs ->
  ((occurrences is_scoring (trace (run evs w0)) <= 1)%nat
   /\ (occurrences is_flip (trace (run evs w0)) <= 1)%nat
   /\ (occurrences is_broadcast (trace (run evs w0)) <= 1)%nat)
  /\ (forall r w, finishedRef (refs (run_sync (handleFinishRound r) w)) = true)
  /\ (forall r w, finishedRef (refs w) = true ->
                  run_sync (handleFinishRound r) w = w).
Proof.
  intros Hp Ht Hevs. split; [|split].
  - destruct (finish_run evs Idle w0) as [s [_ _ Hs Hf Hc]]; [|done|].
    { split; rewrite ?Hp, ?Ht; done. }
    rewrite Hs, Hf. destruct s; simpl in *; lia.
  - apply handleFinishRound_sets_guard.
  - apply handleFinishRound_guarded.
Qed.

End RoundFinish.

(** The timer and the poll both end the round of [P2], the last presenter:
    two invocations, then the three requests of the first settle. *)
Lemma handleFinishRound_single_shot_witness :
  let r := render_of [P0; P1; P2] (Some (js "p2")) 0 in
  let w := run [Invoke (handleFinishRound r); Invoke (handleFinishRound r);
                Settle 0 ok; Settle 0 ok; Settle 0 ok] (fresh game1) in
  (occurrences is_scoring (trace w) <= 1)%nat
  /\ (occurrences is_flip (trace w) <= 1)%nat
  /\ (occurrences is_broadcast (trace w) <= 1)%nat.
Proof.
  intros r w.
  apply (handleFinishRound_single_shot (fresh game1)); [reflexivity | reflexivity |].
  repeat constructor; by exists r.
Defined.

(** *** Advance triggers *)

Inductive Trigger :=
| CountdownExpired
| QuorumReached (total : Z).

(** What a trigger runs on the client: the expiry callback of the countdown,
    or a vote-count refresh whose count query settles with [total]. *)
Definition fire (parse : jsstring -> option Z) (t : Trigger) (r : Render) : list Event :=
  match t with
  | CountdownExpired => [Invoke (countdownExpired parse r)]
  | QuorumReached total =>
      [Invoke (refreshVoteCountAndMaybeAdvance parse r); Settle 0 (counted total)]
  end.

Definition fires (parse : jsstring -> option Z) (t : Trigger) (r : Render) : Prop :=
  match t with
  | CountdownExpired => True
  | QuorumReached total => expectedVotes parse (players r) <= total
  end.

Definition succeeded (reply : Reply) : Prop :=
  match reply with
  | Rejected => False
  | Fulfilled resp => error resp = false
  end.

Section Advance.
Variable Date_parse : jsstring -> option Z.

Lemma findIndex_from_last {A} (f : A -> bool) (l : list A) (x : A) (i : Z) :
  Forall (fun y => f y = false) l -> f x = true ->
  JsArray.findIndex_from f (l ++ [x]) i = i + Z.of_nat (length l).
Proof.
  intros Hl Hx. revert i. induction Hl as [|y l Hy _ IH]; intros i; simpl.
  - rewrite Hx. lia.
  - rewrite Hy, IH. lia.
Qed.

(** The presenter is the last player of the turn order, in the terms of the
    code. *)
Lemma last_is_isLastPlayer (r : Render) (p : Player.t) :
  last (sortedPlayers Date_parse (players r)) = Some p ->
  currentPlayerId r = Some (Player.id p) ->
  NoDup (Player.id <$> players r) ->
  isLastPlayer Date_parse r = true.
Proof.
  intros Hlast Hcur Hnd. unfold isLastPlayer, currentIndex, JsArray.findIndex.
  apply last_Some in Hlast as [l Hl].
  assert (Hnd' : NoDup (Player.id <$> (l ++ [p]))).
  { rewrite <- Hl. by rewrite (sortedPlayers_perm Date_parse). }
  rewrite Hl, (findIndex_from_last (is_current r) l p 0).
  - rewrite length_app. simpl. apply andb_true_iff. split; [apply Z.geb_le | apply Z.eqb_eq]; lia.
  - apply Forall_forall. intros q Hq. unfold is_current. apply bool_decide_eq_false.
    rewrite Hcur. intros [= E].
    rewrite fmap_app in Hnd'. apply NoDup_app in Hnd' as (_ & Hdis & _).
    apply (Hdis (Player.id q)); [by apply list_elem_of_fmap_2 |].
    rewrite E. simpl. by left.
  - unfold is_current. apply bool_decide_eq_true. by rewrite Hcur.
Qed.

Lemma advanceToNextPlayer_guarded r w :
  advancingRef (refs w) = true -> run_sync (advanceToNextPlayer Date_parse r) w = w.
Proof. intros H. simpl. by rewrite H. Qed.

(** C5: when the countdown expires or the quorum is reached while the last
    player of the turn order presents, on a client with no advance or finish
    under way, the engine moves to no presenter, locally or in the store: it
    finishes the round and issues the update that sets [phase] to
    [scoreboard] and [current_player] to null; once that update succeeds, the
    game row reads so. *)
Theorem last_presenter_finishes_round (r : Render) (p : Player.t) (g0 : Game.t)
    (t : Trigger) (scores standings flip : Reply) :
  last (sortedPlayers Date_parse (players r)) = Some p ->
  currentPlayerId r = Some (Player.id p) ->
  truthy (Player.id p) = true ->
  NoDup (Player.id <$> players r) ->
  Game.id g0 = Game.id (game r) ->
  fires Date_parse t r ->
  let w := run (fire Date_parse t r
                ++ [Settle 0 scores; Settle 0 standings; Settle 0 flip]) (fresh g0) in
  occurrences is_advance (trace w) = 0%nat
  /\ occurrences is_presenter_write (trace w) = 0%nat
  /\ occurrences is_flip (trace w) = 1%nat
  /\ finishedRef (refs w) = true
  /\ (succeeded flip ->
      Game.phase (store w) = scoreboard /\ Game.current_player (store w) = None).
Proof.
  intros Hlast Hcur Hid Hnd Hg Hfire.
  pose proof (last_is_isLastPlayer r p Hlast Hcur Hnd) as Hl.
  assert (Hrow : eqb (Game.id (game r)) (Game.id g0) = true)
    by (apply bool_decide_eq_true; congruence).
  destruct t as [|total]; simpl in Hfire |- *.
  - rewrite Hcur. simpl. rewrite Hid, Hl. exec.
    destruct scores, standings, flip; exec; destruct (isHost r); exec;
      rewrite ?Hrow; simpl;
      (repeat split; try done;
       by match goal with H : error _ = false |- _ => rewrite H end).
  - unfold refreshVoteCountAndMaybeAdvance. rewrite Hcur, Hid. exec.
    replace (total >=? expectedVotes Date_parse (players r)) with true
      by (symmetry; apply Z.geb_le; lia).
    exec. rewrite Hl. exec.
    destruct scores, standings, flip; exec; destruct (isHost r); exec;
      rewrite ?Hrow; simpl;
      (repeat split; try done;
       by match goal with H : error _ = false |- _ => rewrite H end).
Qed.


(** C7, as the code has it: a submitted vote sets [hasVoted]; when the call
    fails, [hasVoted] is set back to false, the selected stars are left as
    they were, and the failure is written to the console as a warning, with
    no alert; when the call succeeds, [hasVoted] stays true. *)
Theorem submitCurrentVote_rollback (r : Render) (target : Player.t) (g0 : Game.t)
    (resp : Response) :
  currentPlayer Date_parse r = Some target ->
  selectedStars r <> 0 ->
  let sent := run [Invoke (submitCurrentVote Date_parse r)] (fresh g0) in
  let failed := run [Settle 0 Rejected] sent in
  let voted := run [Settle 0 (Fulfilled resp)] sent in
  (awaiting <$> pending sent
     = [SubmitVote (Game.id (game r)) (Game.round (game r)) (Player.id target)
                   (selectedStars r)]
   /\ next_hasVoted (trace sent) (hasVoted r) = true)
  /\ (next_hasVoted (trace failed) (hasVoted r) = false
      /\ next_selectedStars (trace failed) (selectedStars r) = selectedStars r
      /\ occurrences is_warning (trace failed) = 1%nat
      /\ occurrences is_alert (trace failed) = 0%nat)
  /\ next_hasVoted (trace voted) (hasVoted r) = true.
Proof.
  intros Hcur Hstars sent failed voted.
  assert (Hz : (selectedStars r =? 0) = false) by (by apply Z.eqb_neq).
  assert (Hsent : sent = suspend (log (fresh g0) (Did (SetHasVoted true)))
            {| awaiting := SubmitVote (Game.id (game r)) (Game.round (game r))
                             (Player.id target) (selectedStars r);
               resume := after_submit Date_parse r |}).
  { unfold sent, submitCurrentVote. exec. by rewrite Hcur, Hz. }
  unfold failed, voted. rewrite Hsent. split; [by split |]. split; [by repeat split |].
  exec. unfold refreshVoteCountAndMaybeAdvance.
  destruct (currentPlayerId r) as [c|]; [destruct (truthy c) |]; exec; done.
Qed.

End Advance.

(** *** The first version of [submitCurrentVote], which alerts *)

Definition after_submit_v1 (reply : Reply) : Prog :=
  match reply with
  | Rejected => Do (SetHasVoted false) (Do (AlertAlert (js "Erreur")) Return)
  | Fulfilled _ =>
      Do (AlertAlert (js "Vote enregistr" ++ [233%N]))
        (Do (SetVoteModalVisible false) Return)
  end.

Definition submitCurrentVote_v1 (parse : jsstring -> option Z) (r : Render) : Prog :=
  match currentPlayer parse r with
  | None => Do (AlertAlert (js "Note requise")) Return
  | Some target =>
      if selectedStars r =? 0 then Do (AlertAlert (js "Note requise")) Return
      else
        Do (SetHasVoted true)
          (Await (SubmitVote (Game.id (game r)) (Game.round (game r))
                             (Player.id target) (selectedStars r))
                 after_submit_v1)
  end.

(** What the vote-rollback claim asks of a failed submission. *)
Definition failed_vote_is_surfaced (parse : jsstring -> option Z) (r : Render) : Prop :=
  let failed := run [Invoke (submitCurrentVote parse r); Settle 0 Rejected]
                    (fresh (game r)) in
  next_hasVoted (trace failed) (hasVoted r) = false
  /\ next_selectedStars (trace failed) (selectedStars r) = selectedStars r
  /\ (0 < occurrences is_alert (trace failed))%nat.

(** [P1] rates [P0] with four stars. *)
Definition render_voting : Render :=
  {| user_id := js "user-p1"; game := game1; players := [P0; P1; P2];
     currentGame := game1; currentPlayerId := Some (js "p0");
     hasVoted := false; selectedStars := 4 |}.

Example submitCurrentVote_v1_alerts :
  occurrences is_alert
    (trace (run [Invoke (submitCurrentVote_v1 parse_sample render_voting);
                 Settle 0 Rejected] (fresh game1))) = 1%nat.
Proof. reflexivity. Qed.

(** C7 as worded fails: the failed submission of [P1] is rolled back, but
    nothing is shown to the user. *)
Lemma submitCurrentVote_failure_not_alerted :
  ~ failed_vote_is_surfaced parse_sample render_voting.
Proof. intros (_ & _ & H). vm_compute in H. lia. Qed.

Lemma submitCurrentVote_rollback_witness :
  let sent := run [Invoke (submitCurrentVote parse_sample render_voting)] (fresh game1) in
  let failed := run [Settle 0 Rejected] sent in
  next_hasVoted (trace failed) false = false
  /\ next_selectedStars (trace failed) 4 = 4
  /\ occurrences is_warning (trace failed) = 1%nat
  /\ occurrences is_alert (trace failed) = 0%nat.
Proof.
  intros sent failed.
  apply (submitCurrentVote_rollback parse_sample render_voting P0 game1
           {| error := false; count := None; data := None |}).
  - reflexivity.
  - simpl. lia.
Defined.

Lemma last_presenter_finishes_round_witness :
  let r := render_of [P2; P0; P1] (Some (js "p2")) 0 in
  let w := run (fire parse_sample (QuorumReached 2) r
                ++ [Settle 0 ok; Settle 0 ok; Settle 0 ok]) (fresh game1) in
  occurrences is_advance (trace w) = 0%nat
  /\ occurrences is_presenter_write (trace w) = 0%nat
  /\ occurrences is_flip (trace w) = 1%nat
  /\ finishedRef (refs w) = true
  /\ (succeeded ok ->
      Game.phase (store w) = scoreboard /\ Game.current_player (store w) = None).
Proof.
  intros r w.
  apply (last_presenter_finishes_round parse_sample r P2 game1 (QuorumReached 2) ok ok ok).
  - reflexivity.
  - reflexivity.
  - reflexivity.
  - change (NoDup (Player.id <$> [P2; P0; P1])). compute_done.
  - reflexivity.
  - vm_compute. discriminate.
Defined.


(** The scenario of three players: the votes for [P0] reach the quorum and
    the engine moves to [P1]; the turn of [P1] times out and the engine moves
    to [P2]; [P2] is last, so the round finishes. *)
Example three_player_round :
  let turn current := render_of [P0; P1; P2] (Some current) 0 in
  let moves (w : World) :=
    omap (fun i => match i with Did (SetCurrentPlayerId p) => Some p | _ => None end)
         (trace w) in
  moves (run (fire parse_sample (QuorumReached 2) (turn (js "p0"))) (fresh game1))
    = [Some (js "p1")]
  /\ moves (run (fire parse_sample CountdownExpired (turn (js "p1"))) (fresh game1))
    = [Some (js "p2")]
  /\ Game.phase (store (run (fire parse_sample CountdownExpired (turn (js "p2"))
                             ++ [Settle 0 ok; Settle 0 ok; Settle 0 ok])
                            (fresh game1)))
    = scoreboard.
Proof. repeat split. Qed.

(** *** The advance guard on the way to a next presenter *)

Definition is_settled (i : Item) : bool :=
  match i with Settled _ _ => true | _ => false end.

(** Where a next presenter exists, [advanceToNextPlayer] has released the
    guard by the time it returns, with its store write pending. *)
Lemma advanceToNextPlayer_releases_guard (parse : jsstring -> option Z) (r : Render)
    (w : World) (next : Player.t) :
  advancingRef (refs w) = false ->
  (let i := currentIndex parse r in
   JsArray.at_index (sortedPlayers parse (players r)) (if i >=? 0 then i + 1 else 0))
  = Some next ->
  let w' := run_sync (advanceToNextPlayer parse r) w in
  advancingRef (refs w') = false
  /\ pending w'
     = pending w ++ [ {| awaiting := updateCurrentPlayer r (Some (Player.id next));
                         resume := after_write |} ]
  /\ occurrences is_advance (trace w') = S (occurrences is_advance (trace w)).
Proof.
  intros Hadv Hnext. unfold advanceToNextPlayer. cbn [run_sync]. rewrite Hadv.
  cbv zeta in Hnext |- *.
  set (n := if currentIndex parse r >=? 0 then currentIndex parse r + 1 else 0) in *.
  destruct (n >=? Z.of_nat (length (sortedPlayers parse (players r)))) eqn:Hn.
  - exfalso. apply Z.geb_le in Hn. unfold JsArray.at_index in Hnext.
    destruct (n <? 0) eqn:Hneg; [done |]. apply Z.ltb_ge in Hneg.
    apply lookup_lt_Some in Hnext. lia.
  - rewrite Hnext. exec. repeat split.
    by rewrite !occurrences_snoc, !Nat.add_0_r, Nat.add_1_r.
Qed.

(** C1 on the code: [P0] presents to [P1] and [P2]; a vote-count refresh is
    in flight when the countdown expires, and its count of 2 arrives next.
    Both triggers run the advance to [P1]: the local presenter is set twice
    and [current_player] is written twice, since the first advance released
    the guard before it returned. *)
Example double_trigger_advances_twice :
  let r := render_of [P0; P1; P2] (Some (js "p0")) 0 in
  let w := run [Invoke (refreshVoteCountAndMaybeAdvance parse_sample r);
                Invoke (countdownExpired parse_sample r);
                Settle 0 (counted 2)] (fresh game1) in
  occurrences is_advance (trace w) = 2%nat
  /\ occurrences is_presenter_write (trace w) = 2%nat
  /\ advancingRef (refs w) = false.
Proof. repeat split. Qed.

(** C8 on the code: after [advanceToNextPlayer] has moved from [P0] to [P1],
    the guard is clear while the write of [current_player] has not settled. *)
Example advancing_released_before_write_settles :
  let r := render_of [P0; P1; P2] (Some (js "p0")) 0 in
  let w := run [Invoke (advanceToNextPlayer parse_sample r)] (fresh game1) in
  advancingRef (refs w) = false
  /\ awaiting <$> pending w = [updateCurrentPlayer r (Some (js "p1"))]
  /\ occurrences is_settled (trace w) = 0%nat.
Proof. repeat split. Qed.

(** The path to the round finish holds the guard through its requests: for
    the solo player [P0] it is released only when the phase update settles,
    whether that succeeds or not. *)
Example advancing_held_through_round_finish :
  let r := render_of [P0] (Some (js "p0")) 0 in
  let held (evs : list Event) :=
    advancingRef (refs (run (Invoke (advanceToNextPlayer parse_sample r) :: evs)
                            (fresh game1))) in
  held [] = true
  /\ held [Settle 0 ok] = true
  /\ held [Settle 0 ok; Settle 0 ok] = true
  /\ held [Settle 0 ok; Settle 0 ok; Settle 0 ok] = false
  /\ held [Settle 0 ok; Settle 0 ok; Settle 0 Rejected] = false.
Proof. repeat split. Qed.

End RatingScreen.

(** ** hooks/useLiveStream.ts and lib/streaming/peerConnection.ts *)

Module LiveStream.

Inductive PeerRole := host | viewer.

#[global] Instance PeerRole_eq_dec : EqDecision PeerRole.
Proof. solve_decision. Defined.

(** A [PeerConnectionManager] object.  [target] is the user its signaling
    handler addresses; [peer] tells whether it holds an [RTCPeerConnection]
    that was created and not closed. *)
Module PeerConnectionManager.
Record t := {
  role : PeerRole;
  userId : jsstring;
  target : jsstring;
  peer : bool;
  localTrack : bool;
  trackListener : bool;
  remoteStream : bool;
}.

Definition new (role : PeerRole) (userId target : jsstring) : t :=
  {| role := role; userId := userId; target := target; peer := false;
     localTrack := false; trackListener := false; remoteStream := false |}.

Definition attachTrack (m : t) : t :=
  {| role := role m; userId := userId m; target := target m; peer := peer m;
     localTrack := true; trackListener := trackListener m;
     remoteStream := remoteStream m |}.

Definition onRemoteTrack (m : t) : t :=
  {| role := role m; userId := userId m; target := target m; peer := peer m;
     localTrack := localTrack m; trackListener := true;
     remoteStream := remoteStream m |}.

(** The body of [createPeer] has no [await]: the connection exists when the
    call returns. *)
Definition createPeer (m : t) : t :=
  {| role := role m; userId := userId m; target := target m; peer := true;
     localTrack := localTrack m; trackListener := trackListener m;
     remoteStream := remoteStream m |}.

Definition close (m : t) : t :=
  {| role := role m; userId := userId m; target := target m; peer := false;
     localTrack := localTrack m; trackListener := trackListener m;
     remoteStream := false |}.
End PeerConnectionManager.

(** The refs and the state of the hook, with the managers constructed so
    far: [new] appends one, and a ref holds an index. *)
Record Hook := {
  objects : list PeerConnectionManager.t;
  peerRef : option nat;
  peerRoleRef : option PeerRole;
  targetRef : option jsstring;
  localStreamRef : bool;
  isPublishing : bool;
  streamOwnerId : option jsstring;
  remoteStream : bool;
}.

Definition initial : Hook :=
  {| objects := []; peerRef := None; peerRoleRef := None; targetRef := None;
     localStreamRef := false; isPublishing := false; streamOwnerId := None;
     remoteStream := false |}.

Definition cleanupPeer (h : Hook) : Hook :=
  {| objects := match peerRef h with
                | Some i => alter PeerConnectionManager.close i (objects h)
                | None => objects h
                end;
     peerRef := None; peerRoleRef := None; targetRef := None;
     localStreamRef := localStreamRef h; isPublishing := isPublishing h;
     streamOwnerId := streamOwnerId h; remoteStream := remoteStream h |}.

(** Installs a manager that was just constructed. *)
Definition install (m : PeerConnectionManager.t) (r : PeerRole) (to : jsstring)
    (h : Hook) : Hook :=
  {| objects := objects h ++ [m]; peerRef := Some (length (objects h));
     peerRoleRef := Some r; targetRef := Some to;
     localStreamRef := localStreamRef h; isPublishing := isPublishing h;
     streamOwnerId := streamOwnerId h; remoteStream := remoteStream h |}.

(** [requestViewerConnection], up to the first suspension of
    [manager.createOffer()]. *)
Definition requestViewerConnection (user ownerId : jsstring) (h : Hook) : Hook :=
  let manager :=
    PeerConnectionManager.onRemoteTrack
      (PeerConnectionManager.new viewer user ownerId) in
  install (PeerConnectionManager.createPeer manager) viewer ownerId h.

Record Signal := {
  fromUserId : jsstring;
  targetUserId : option jsstring;
}.

(** [handleSignalingOffer], up to the first suspension of
    [manager.handleOffer(...)]; [None] is a falsy payload.  The handler is a
    closure of the effect that installed it: [rendered] is the value that
    [isPublishing] had in the render of that effect, whatever the state has
    been set to since; the refs are read as they are now. *)
Definition handleSignalingOffer (user : jsstring) (rendered : bool)
    (payload : option Signal) (h : Hook) : Hook :=
  match payload with
  | None => h
  | Some s =>
      if eqb (fromUserId s) user then h
      else if match targetUserId s with
              | Some t => truthy t && negb (eqb t user)
              | None => false
              end then h
      else if negb rendered || negb (localStreamRef h) then h
      else
        let manager :=
          PeerConnectionManager.attachTrack
            (PeerConnectionManager.new host user (fromUserId s)) in
        install (PeerConnectionManager.createPeer manager) host (fromUserId s) h
  end.

Definition setStreamOwnerId (o : option jsstring) (h : Hook) : Hook :=
  {| objects := objects h; peerRef := peerRef h; peerRoleRef := peerRoleRef h;
     targetRef := targetRef h; localStreamRef := localStreamRef h;
     isPublishing := isPublishing h; streamOwnerId := o;
     remoteStream := remoteStream h |}.

Definition setIsPublishing (b : bool) (h : Hook) : Hook :=
  {| objects := objects h; peerRef := peerRef h; peerRoleRef := peerRoleRef h;
     targetRef := targetRef h; localStreamRef := localStreamRef h;
     isPublishing := b; streamOwnerId := streamOwnerId h;
     remoteStream := remoteStream h |}.

Definition setRemoteStream (b : bool) (h : Hook) : Hook :=
  {| objects := objects h; peerRef := peerRef h; peerRoleRef := peerRoleRef h;
     targetRef := targetRef h; localStreamRef := localStreamRef h;
     isPublishing := isPublishing h; streamOwnerId := streamOwnerId h;
     remoteStream := b |}.

(** [localStreamRef.current = stream] and [localStreamRef.current = null]. *)
Definition setLocalStream (b : bool) (h : Hook) : Hook :=
  {| objects := objects h; peerRef := peerRef h; peerRoleRef := peerRoleRef h;
     targetRef := targetRef h; localStreamRef := b;
     isPublishing := isPublishing h; streamOwnerId := streamOwnerId h;
     remoteStream := remoteStream h |}.

(** [stream:started] with [payload.userId]. *)
Definition handleStreamStarted (user userId : jsstring) (h : Hook) : Hook :=
  let h' := setStreamOwnerId (Some userId) h in
  if negb (eqb userId user) then requestViewerConnection user userId h'
  else setIsPublishing true h'.

Definition handleStreamStopped (h : Hook) : Hook :=
  setRemoteStream false (cleanupPeer (setIsPublishing false (setStreamOwnerId None h))).

(** The function that the effect on [cleanupPeer], [isPublishing] and
    [user.id] returns, which runs when the effect is set up again and when
    the component unmounts: the handlers come off the socket, the current
    session is cleaned up and a local stream is stopped and dropped. *)
Definition effectCleanup (h : Hook) : Hook :=
  let h' := cleanupPeer h in
  if localStreamRef h' then setLocalStream false h' else h'.

(** [stopPublishing], a callback of the render in which [isPublishing] was
    [rendered]; the [stream:stop] message it sends leaves the hook as it
    is. *)
Definition stopPublishing (rendered : bool) (h : Hook) : Hook :=
  if negb rendered then h
  else cleanupPeer (setIsPublishing false (setLocalStream false h)).

(** The effect on [streamOwnerId] and [remoteStream]. *)
Definition ownerEffect (user : jsstring) (h : Hook) : Hook :=
  match streamOwnerId h with
  | Some o =>
      if truthy o && negb (eqb o user) && negb (remoteStream h)
      then requestViewerConnection user o h
      else h
  | None => h
  end.

(** The managers that hold a live connection for a role and a counterpart. *)
Definition sessions (r : PeerRole) (counterpart : jsstring) (h : Hook)
    : list PeerConnectionManager.t :=
  filter (fun m => PeerConnectionManager.peer m = true
                   /\ PeerConnectionManager.role m = r
                   /\ PeerConnectionManager.target m = counterpart)
         (objects h).

(** Neither path that creates a session touches the managers that exist. *)
Lemma requestViewerConnection_keeps user ownerId h i m :
  objects h !! i = Some m ->
  objects (requestViewerConnection user ownerId h) !! i = Some m.
Proof. intros H. simpl. by apply lookup_app_l_Some. Qed.

Lemma handleSignalingOffer_keeps user rendered payload h i m :
  objects h !! i = Some m ->
  objects (handleSignalingOffer user rendered payload h) !! i = Some m.
Proof.
  intros H. unfold handleSignalingOffer.
  repeat case_match; simpl; auto using lookup_app_l_Some.
Qed.

(** The only close is that of the manager in [peerRef]. *)
Lemma cleanupPeer_closes h i m :
  peerRef h = Some i -> objects h !! i = Some m ->
  objects (cleanupPeer h) !! i = Some (PeerConnectionManager.close m).
Proof.
  intros Hp Hm. unfold cleanupPeer. simpl. rewrite Hp.
  by rewrite list_lookup_alter_eq, Hm.
Qed.

Lemma cleanupPeer_others h j :
  peerRef h <> Some j -> objects (cleanupPeer h) !! j = objects h !! j.
Proof.
  intros Hj. unfold cleanupPeer. simpl. destruct (peerRef h) as [i|]; [|done].
  apply list_lookup_alter_ne. congruence.
Qed.

(** The offer passes the guards of a handler that was installed while
    [isPublishing] was [rendered]. *)
Definition accepts (user : jsstring) (rendered : bool) (s : Signal) (h : Hook) : Prop :=
  fromUserId s <> user
  /\ match targetUserId s with
     | Some t => truthy t = true -> t = user
     | None => True
     end
  /\ rendered = true
  /\ localStreamRef h = true.

(** What the singularity claim asks of a creation step: the manager that was
    current before is closed after. *)
Definition closes_previous (before after : Hook) : Prop :=
  forall i m, peerRef before = Some i -> objects after !! i = Some m ->
              PeerConnectionManager.peer m = false.

(** The publisher [user-p0] with a captured camera, and the offers of two
    viewers. *)
Definition publishing : Hook :=
  {| objects := []; peerRef := None; peerRoleRef := None; targetRef := None;
     localStreamRef := true; isPublishing := true;
     streamOwnerId := Some (js "user-p0"); remoteStream := false |}.

Definition offer_from (viewer_id : string) : Signal :=
  {| fromUserId := js viewer_id; targetUserId := Some (js "user-p0") |}.

Definition live_host (user to : jsstring) : PeerConnectionManager.t :=
  {| PeerConnectionManager.role := host; PeerConnectionManager.userId := user;
     PeerConnectionManager.target := to; PeerConnectionManager.peer := true;
     PeerConnectionManager.localTrack := true;
     PeerConnectionManager.trackListener := false;
     PeerConnectionManager.remoteStream := false |}.

Definition live_viewer (user to : jsstring) : PeerConnectionManager.t :=
  {| PeerConnectionManager.role := viewer; PeerConnectionManager.userId := user;
     PeerConnectionManager.target := to; PeerConnectionManager.peer := true;
     PeerConnectionManager.localTrack := false;
     PeerConnectionManager.trackListener := true;
     PeerConnectionManager.remoteStream := false |}.

Lemma handleSignalingOffer_accepted user rendered s h :
  accepts user rendered s h ->
  handleSignalingOffer user rendered (Some s) h
  = install (live_host user (fromUserId s)) host (fromUserId s) h.
Proof.
  intros (Hfrom & Hto & -> & Hcam). unfold handleSignalingOffer, eqb.
  rewrite (bool_decide_eq_false_2 _ Hfrom), Hcam.
  destruct (targetUserId s) as [t|]; [|done].
  destruct (truthy t); [|done]. rewrite (Hto eq_refl).
  by rewrite (bool_decide_eq_true_2 (user = user)).
Qed.

(** The three places that call [cleanupPeer]: the handler of
    [stream:stopped], [stopPublishing] in a render that is publishing, and
    the cleanup of the effect, which is also what an unmount runs. *)
Definition teardowns (h : Hook) : list Hook :=
  [handleStreamStopped h; stopPublishing true h; effectCleanup h].

Lemma teardown_objects (h torn : Hook) :
  torn ∈ teardowns h -> objects torn = objects (cleanupPeer h) /\ peerRef torn = None.
Proof.
  intros H. apply list_elem_of_In in H. simpl in H.
  destruct H as [<- | [<- | [<- | []]]]; try done.
  unfold effectCleanup. by destruct (localStreamRef (cleanupPeer h)).
Qed.

(** C9, as the code has it: the hook tracks one current manager in
    [peerRef].  An offer that a publisher with a camera accepts creates a
    live host session for the offering viewer and makes it the current one,
    and a viewer connection, on any client, makes its new live session the
    current one; either leaves every manager created before as it was, so
    that a publisher holds a session per offer.  The handler of
    [stream:stopped], [stopPublishing] on a publishing client and the
    cleanup of the effect, which an unmount runs, each close the current
    manager and no other through [cleanupPeer], and clear the ref, whether
    or not the client is publishing; [stopPublishing] on a client that is
    not publishing does nothing. *)
Theorem new_session_replaces_current (user owner : jsstring) (s : Signal) (h : Hook) :
  let n := length (objects h) in
  let requested := requestViewerConnection user owner h in
  (forall rendered,
     accepts user rendered s h ->
     let offered := handleSignalingOffer user rendered (Some s) h in
     peerRef offered = Some n
     /\ objects offered !! n = Some (live_host user (fromUserId s))
     /\ forall i m, objects h !! i = Some m -> objects offered !! i = Some m)
  /\ (peerRef requested = Some n
      /\ objects requested !! n = Some (live_viewer user owner)
      /\ forall i m, objects h !! i = Some m -> objects requested !! i = Some m)
  /\ (forall torn,
        torn ∈ teardowns h ->
        peerRef torn = None
        /\ (forall i m, peerRef h = Some i -> objects h !! i = Some m ->
              objects torn !! i = Some (PeerConnectionManager.close m))
        /\ (forall j, peerRef h <> Some j -> objects torn !! j = objects h !! j))
  /\ stopPublishing false h = h.
Proof.
  intros n requested. split; [|split; [|split]].
  - intros rendered Hacc offered. unfold offered.
    rewrite (handleSignalingOffer_accepted _ _ _ _ Hacc). simpl.
    split; [done |]. split.
    + by rewrite lookup_app_r, Nat.sub_diag.
    + intros i m Hm. by apply lookup_app_l_Some.
  - unfold requested. simpl. split; [done |]. split.
    + by rewrite lookup_app_r, Nat.sub_diag.
    + intros i m Hm. by apply lookup_app_l_Some.
  - intros torn Ht. destruct (teardown_objects h torn Ht) as [Ho Hp].
    split; [exact Hp |]. rewrite Ho. split.
    + intros i m Hi Hm. by apply cleanupPeer_closes.
    + intros j Hj. by apply cleanupPeer_others.
  - reflexivity.
Qed.

Lemma new_session_replaces_current_witness :
  let offered :=
    handleSignalingOffer (js "user-p0") true (Some (offer_from "user-p1")) publishing in
  peerRef offered = Some 0%nat
  /\ objects offered !! 0%nat = Some (live_host (js "user-p0") (js "user-p1"))
  /\ forall i m, objects publishing !! i = Some m -> objects offered !! i = Some m.
Proof.
  intros offered.
  apply (new_session_replaces_current (js "user-p0") (js "user-p0")
           (offer_from "user-p1") publishing).
  repeat split; vm_compute; congruence.
Defined.

(** C9 as worded fails: the publisher answers the offer of [user-p1], then
    that of [user-p2]; the session of [user-p1] is not closed when the second
    is installed, and two outbound sessions of [user-p0] are live at once. *)
Lemma second_offer_keeps_first_session :
  let first :=
    handleSignalingOffer (js "user-p0") true (Some (offer_from "user-p1")) publishing in
  let second :=
    handleSignalingOffer (js "user-p0") true (Some (offer_from "user-p2")) first in
  ~ closes_previous first second
  /\ length (filter (fun m => PeerConnectionManager.peer m = true
                              /\ PeerConnectionManager.role m = host
                              /\ PeerConnectionManager.userId m = js "user-p0")
                    (objects second)) = 2%nat.
Proof.
  split; [|reflexivity].
  intros H. specialize (H 0%nat (live_host (js "user-p0") (js "user-p1")) eq_refl eq_refl).
  discriminate.
Qed.

(** The viewer [user-p1] learns that [user-p0] streams; the
    handler requests a connection and the effect on the owner requests one
    more before any track came in.  Two viewer sessions to [user-p0] are live
    at once; the first was not closed and no ref holds it any more. *)
Example viewer_sessions_pile_up :
  let u1 := js "user-p1" in
  let u0 := js "user-p0" in
  let h := ownerEffect u1 (handleStreamStarted u1 u0 initial) in
  length (sessions viewer u0 h) = 2%nat
  /\ peerRef h = Some 1%nat
  /\ (PeerConnectionManager.peer <$> objects h !! 0%nat) = Some true.
Proof. repeat split. Qed.

End LiveStream.

(** ** More of lib/avatarSources.ts *)

Module AvatarSourcesFacts.
Import AvatarSources.

(** *** Trimming *)

Definition white (s : jsstring) : Prop := forallb isWhiteSpace s = true.

Lemma trimStart_white_app (pre s : jsstring) :
  white pre -> trimStart (pre ++ s) = trimStart s.
Proof.
  unfold white. induction pre as [|c pre IH]; simpl; [done |].
  intros H. apply andb_true_iff in H as [-> H]. by apply IH.
Qed.

Lemma trimStart_split (s : jsstring) :
  exists pre, s = pre ++ trimStart s /\ white pre.
Proof.
  induction s as [|c s (pre & E & Hpre)]; simpl.
  - by exists [].
  - destruct (isWhiteSpace c) eqn:Hc.
    + exists (c :: pre). split; [simpl; congruence |].
      unfold white. simpl. by rewrite Hc.
    + by exists [].
Qed.

Lemma trimStart_head (s : jsstring) :
  match trimStart s with [] => True | c :: _ => isWhiteSpace c = false end.
Proof.
  induction s as [|c s IH]; simpl; [done |].
  destruct (isWhiteSpace c) eqn:Hc; [exact IH | exact Hc].
Qed.

Lemma trimStart_app_keep (s post : jsstring) :
  trimStart s <> [] -> trimStart (s ++ post) = trimStart s ++ post.
Proof.
  induction s as [|c s IH]; simpl; [done |].
  destruct (isWhiteSpace c); [exact IH | done].
Qed.

Lemma white_rev (s : jsstring) : white s -> white (rev s).
Proof.
  unfold white. rewrite !forallb_forall. intros H c Hc. apply H. by apply in_rev.
Qed.

Lemma trimStart_white (s : jsstring) : white s -> trimStart s = [].
Proof.
  intros H. rewrite <- (app_nil_r s). by rewrite trimStart_white_app.
Qed.

(** A string is trimmed when neither end is white space. *)
Definition trimmed (s : jsstring) : Prop :=
  trimStart s = s /\ trimStart (rev s) = rev s.

Lemma trimmed_trim (s : jsstring) : trimmed s -> trim s = s.
Proof.
  intros [H1 H2]. unfold trim, trimEnd. by rewrite H1, H2, rev_involutive.
Qed.

Lemma trim_trimmed (v : jsstring) : trimmed (trim v).
Proof.
  unfold trim, trimEnd, trimmed. rewrite rev_involutive.
  set (u := trimStart v). set (w := trimStart (rev u)).
  split; [| apply trimStart_id, trimStart_head ].
  destruct (trimStart_split (rev u)) as (pre & E & _). fold w in E.
  assert (Eu : u = rev w ++ rev pre) by (by rewrite <- rev_app_distr, <- E, rev_involutive).
  apply trimStart_id. destruct (rev w) as [|c t] eqn:Ew; [done |].
  pose proof (trimStart_head v) as Hh. fold u in Hh. rewrite Eu in Hh. exact Hh.
Qed.

Lemma trim_idempotent (v : jsstring) : trim (trim v) = trim v.
Proof. apply trimmed_trim, trim_trimmed. Qed.

Lemma trim_white_around (pre v post : jsstring) :
  white pre -> white post -> trim (pre ++ v ++ post) = trim v.
Proof.
  intros Hpre Hpost. unfold trim, trimEnd. rewrite trimStart_white_app by done.
  destruct (trimStart v) as [|c t] eqn:Ev.
  - destruct (trimStart_split v) as (wv & E & Hwv). rewrite Ev, app_nil_r in E. subst wv.
    rewrite (trimStart_white (v ++ post)); [done |].
    unfold white in *. rewrite forallb_app. by rewrite Hwv, Hpost.
  - rewrite trimStart_app_keep by (rewrite Ev; done). rewrite Ev.
    by rewrite rev_app_distr, trimStart_white_app by (by apply white_rev).
Qed.

(** *** Results of [normalizeModelCandidate] *)

Lemma startsWith_nonempty (p s : jsstring) :
  p <> [] -> startsWith p s = true -> truthy s = true.
Proof. destruct p, s; simpl; done. Qed.

Lemma model_source_truthy (s : jsstring) : model_source s -> truthy s = true.
Proof.
  intros [H _]. apply orb_true_iff in H as [H | H];
    [apply orb_true_iff in H as [H | H] |];
    (eapply startsWith_nonempty; cycle 1; [exact H | done]).
Qed.

Lemma trimmed_ends (c d : N) (s : jsstring) :
  isWhiteSpace c = false -> isWhiteSpace d = false -> trimmed (c :: s ++ [d]).
Proof.
  intros Hc Hd. split.
  - simpl. by rewrite Hc.
  - change (c :: s ++ [d]) with ((c :: s) ++ [d]). rewrite rev_app_distr. simpl.
    by rewrite Hd.
Qed.

(** A returned source is a fixed point of the normalisation. *)
Lemma normalizeModelCandidate_fixed (v s : jsstring) :
  normalizeModelCandidate v = Some s -> normalizeModelCandidate s = Some s.
Proof.
  unfold normalizeModelCandidate.
  pose proof (trim_idempotent v) as Hidem. revert Hidem.
  generalize (trim v) as t. intros t Hidem H.
  destruct (truthy t) eqn:Ht; cbn [negb] in H; [|discriminate].
  destruct (startsWith (js "http://") t || startsWith (js "https://") t) eqn:E1.
  { apply (inj Some) in H. subst s. by rewrite Hidem, Ht, E1. }
  destruct (startsWith (js "data:") t) eqn:E2.
  { destruct (data_image_test t) eqn:E3; [discriminate |].
    apply (inj Some) in H. subst s. by rewrite Hidem, Ht, E1, E2, E3. }
  destruct (_ && _ && _) eqn:E4; [|discriminate]. apply (inj Some) in H. subst s.
  apply andb_true_iff in E4 as [E4 _]. apply andb_true_iff in E4 as [_ E4].
  unfold BASE64_MODEL_PATTERN_test in E4. apply andb_true_iff in E4 as [_ Hb64].
  assert (Hlast : exists u d, t = u ++ [d]).
  { destruct (exists_last (l := t)) as (u & d & ->); [by destruct t | by exists u, d]. }
  destruct Hlast as (u & d & ->).
  assert (Hd : isWhiteSpace d = false).
  { apply base64_not_space. rewrite forallb_app in Hb64.
    apply andb_true_iff in Hb64 as [_ Hd]. simpl in Hd. by rewrite andb_true_r in Hd. }
  assert (Htrim : trim (js "data:model/gltf-binary;base64," ++ u ++ [d])
                  = js "data:model/gltf-binary;base64," ++ u ++ [d]).
  { apply trimmed_trim. rewrite app_assoc.
    apply (trimmed_ends 100 d); [reflexivity | exact Hd]. }
  rewrite Htrim. reflexivity.
Qed.

(** *** The walk, without fuel *)

(** The loop over [MODEL_SOURCE_KEYS] for a total [visit]. *)
Fixpoint pick (visit : value -> option jsstring) (record : gmap jsstring value)
    (keys : list jsstring) : option jsstring :=
  match keys with
  | [] => None
  | key :: rest =>
      match record !! key with
      | None => pick visit record rest
      | Some v =>
          match visit v with
          | Some candidate =>
              if truthy candidate then Some candidate else pick visit record rest
          | None => pick visit record rest
          end
      end
  end.

Lemma scanKeys_pick (run : value -> outcome) (visit : value -> option jsstring)
    record keys :
  (forall v, run v = Returned (visit v)) ->
  scanKeys run record keys = Returned (pick visit record keys).
Proof.
  intros E. induction keys as [|k keys IH]; simpl; [done |].
  destruct (record !! k) as [v|]; [|done]. rewrite E.
  destruct (visit v) as [c|]; [|done]. by destruct (truthy c).
Qed.

Lemma extractAvatarSource_run fuel h payload depth :
  (MAX_NESTING_DEPTH + 1 - depth < fuel)%nat ->
  extractAvatarSource_fuel fuel h payload depth
  = Returned (extractAvatarSource h payload depth).
Proof.
  intros Hf. unfold extractAvatarSource.
  rewrite (extractAvatarSource_fuel_irrelevant
             (S (MAX_NESTING_DEPTH + 1 - depth)) fuel) by lia.
  by destruct (extractAvatarSource_fuel_returns fuel h payload depth Hf) as (r & -> & _).
Qed.

Lemma extractAvatarSource_deep h payload depth :
  (MAX_NESTING_DEPTH < depth)%nat -> extractAvatarSource h payload depth = None.
Proof.
  intros Hd. unfold extractAvatarSource. rewrite extractAvatarSource_fuel_S.
  by rewrite (bool_decide_eq_true_2 _ Hd), orb_true_r.
Qed.

Lemma extractAvatarSource_string h s depth :
  (depth <= MAX_NESTING_DEPTH)%nat ->
  extractAvatarSource h (VString s) depth = normalizeModelCandidate s.
Proof.
  intros Hd. unfold extractAvatarSource. rewrite extractAvatarSource_fuel_S.
  rewrite bool_decide_eq_false_2 by lia. cbn [falsy]. rewrite orb_false_r.
  destruct s as [|c s]; [reflexivity | done].
Qed.

Lemma extractAvatarSource_object h ref depth :
  (depth <= MAX_NESTING_DEPTH)%nat ->
  extractAvatarSource h (VObject ref) depth
  = pick (fun v => extractAvatarSource h v (S depth)) (fields h ref) MODEL_SOURCE_KEYS.
Proof.
  intros Hd. unfold extractAvatarSource at 1. rewrite extractAvatarSource_fuel_S.
  rewrite bool_decide_eq_false_2 by lia. cbn [falsy orb].
  rewrite (scanKeys_pick _ (fun v => extractAvatarSource h v (S depth))); [done |].
  intros v. apply extractAvatarSource_run. unfold MAX_NESTING_DEPTH in *. lia.
Qed.

Lemma extractAvatarSource_source h payload depth s :
  extractAvatarSource h payload depth = Some s -> model_source s.
Proof.
  intros H.
  destruct (extractAvatarSource_fuel_returns
              (S (MAX_NESTING_DEPTH + 1 - depth)) h payload depth) as (r & Hr & Hsrc);
    [lia |].
  apply Hsrc. unfold extractAvatarSource in H. by rewrite Hr in H.
Qed.

Lemma pick_from_normalize (visit : value -> option jsstring) record keys s :
  (forall v c, visit v = Some c -> exists u, normalizeModelCandidate u = Some c) ->
  pick visit record keys = Some s -> exists u, normalizeModelCandidate u = Some s.
Proof.
  intros Hv. induction keys as [|k keys IH]; simpl; [done |].
  destruct (record !! k) as [v|]; [|exact IH].
  destruct (visit v) as [c|] eqn:Ec; [|exact IH].
  destruct (truthy c); [|exact IH]. intros [= <-]. by apply (Hv v).
Qed.

Lemma extractAvatarSource_from_normalize h payload depth s :
  extractAvatarSource h payload depth = Some s ->
  exists u, normalizeModelCandidate u = Some s.
Proof.
  remember (S MAX_NESTING_DEPTH - depth)%nat as n eqn:En.
  revert payload depth s En. induction n as [|n IH]; intros payload depth s En H.
  - rewrite extractAvatarSource_deep in H by lia. done.
  - assert (Hd : (depth <= MAX_NESTING_DEPTH)%nat) by lia.
    destruct payload as [ | | b | z | u | ref ];
      try (unfold extractAvatarSource in H; rewrite extractAvatarSource_fuel_S in H;
           cbn [falsy] in H; by destruct (_ || _)).
    + rewrite extractAvatarSource_string in H by done. by exists u.
    + rewrite extractAvatarSource_object in H by done.
      apply pick_from_normalize in H; [done |].
      intros v c Hc. apply (IH v (S depth)); [lia | done].
Qed.

(** X1: a source that [extractAvatarSource] returned is returned unchanged
    when it is passed in again, whatever the payload it came from. *)
Theorem extractAvatarSource_fixed_point (h h' : heap) (payload : value)
    (depth : nat) (s : jsstring) :
  extractAvatarSource h payload depth = Some s ->
  extractAvatarSource h' (VString s) 0 = Some s.
Proof.
  intros H. apply extractAvatarSource_from_normalize in H as [u Hu].
  rewrite extractAvatarSource_string by (unfold MAX_NESTING_DEPTH; lia).
  by apply (normalizeModelCandidate_fixed u).
Qed.

(** X2: white space and line breaks around a string payload do not change
    the result. *)
Theorem extractAvatarSource_ignores_outer_space (h : heap) (pre v post : jsstring)
    (depth : nat) :
  white pre -> white post ->
  extractAvatarSource h (VString (pre ++ v ++ post)) depth
  = extractAvatarSource h (VString v) depth.
Proof.
  intros Hpre Hpost.
  destruct (decide (depth <= MAX_NESTING_DEPTH)%nat) as [Hd | Hd].
  - rewrite !extractAvatarSource_string by done.
    unfold normalizeModelCandidate. by rewrite trim_white_around.
  - by rewrite !extractAvatarSource_deep by lia.
Qed.

Lemma extractAvatarSource_fixed_point_witness :
  extractAvatarSource ∅ (VString (js "  https://cdn.example.com/foo.glb ")) 0
  = Some (js "https://cdn.example.com/foo.glb")
  /\ extractAvatarSource ∅ (VString (js "https://cdn.example.com/foo.glb")) 0
     = Some (js "https://cdn.example.com/foo.glb").
Proof.
  assert (H : extractAvatarSource ∅ (VString (js "  https://cdn.example.com/foo.glb ")) 0
              = Some (js "https://cdn.example.com/foo.glb")) by reflexivity.
  split; [exact H |].
  exact (extractAvatarSource_fixed_point ∅ ∅ _ 0 _ H).
Defined.

Lemma extractAvatarSource_ignores_outer_space_witness :
  extractAvatarSource ∅ (VString (js "  " ++ js "https://a.example/m.glb" ++ [10%N])) 0
  = extractAvatarSource ∅ (VString (js "https://a.example/m.glb")) 0.
Proof.
  apply (extractAvatarSource_ignores_outer_space ∅ (js "  ") _ [10%N] 0); reflexivity.
Defined.

(** *** Which key wins *)

Lemma pick_first (visit : value -> option jsstring) record before k after v s :
  (forall k', k' ∈ before -> visit (default VUndefined (record !! k')) = None) ->
  visit VUndefined = None ->
  record !! k = Some v -> visit v = Some s -> truthy s = true ->
  pick visit record (before ++ k :: after) = Some s.
Proof.
  intros Hbefore Hundef Hk Hv Hs. induction before as [|b before IH]; simpl.
  - by rewrite Hk, Hv, Hs.
  - pose proof (Hbefore b ltac:(by left)) as Hb.
    destruct (record !! b) as [vb|]; simpl in Hb.
    + rewrite Hb. apply IH. intros k' Hk'. apply Hbefore. by right.
    + apply IH. intros k' Hk'. apply Hbefore. by right.
Qed.

(** X4: among the properties of an object, the first key of
    [MODEL_SOURCE_KEYS] that leads to a source decides; keys listed after it
    are not consulted, and keys before it that are absent or lead to nothing
    are passed over. *)
Theorem extractAvatarSource_key_priority (h : heap) (ref depth : nat)
    (before after : list jsstring) (k : jsstring) (v : value) (s : jsstring) :
  (depth <= MAX_NESTING_DEPTH)%nat ->
  MODEL_SOURCE_KEYS = before ++ k :: after ->
  (forall k', k' ∈ before ->
     extractAvatarSource h (default VUndefined (fields h ref !! k')) (S depth) = None) ->
  fields h ref !! k = Some v ->
  extractAvatarSource h v (S depth) = Some s ->
  extractAvatarSource h (VObject ref) depth = Some s.
Proof.
  intros Hd Hkeys Hbefore Hk Hv.
  rewrite extractAvatarSource_object by done. rewrite Hkeys.
  apply (pick_first _ _ _ _ _ v); try done.
  by apply model_source_truthy, (extractAvatarSource_source h v (S depth)).
Qed.

Lemma extractAvatarSource_key_priority_witness :
  let h : heap :=
    {[ 0%nat := {[ js "model" := VNumber 42;
                   js "url" := VString (js "https://a.example/first.glb");
                   js "src" := VString (js "https://a.example/second.glb") ]} ]} in
  extractAvatarSource h (VObject 0) 0 = Some (js "https://a.example/first.glb").
Proof.
  intros h.
  apply (extractAvatarSource_key_priority h 0 0
           (js <$> ["glbUrl"; "glb"; "blobUrl"; "modelUrl"; "model"]%string)
           (js <$> ["signedUrl"; "signed_url"; "href"; "value"; "src"; "source";
                    "dataUrl"; "data_url"]%string)
           (js "url") (VString (js "https://a.example/first.glb"))).
  - unfold MAX_NESTING_DEPTH. lia.
  - reflexivity.
  - intros k' Hk'. apply list_elem_of_In in Hk'. simpl in Hk'.
    destruct Hk' as [<- | [<- | [<- | [<- | [<- | []]]]]]; vm_compute; reflexivity.
  - vm_compute. reflexivity.
  - reflexivity.
Defined.

(** *** How deep a source may lie *)

(** [top] reaches [leaf] through the objects of [path], each of which has
    one property, under a key of [MODEL_SOURCE_KEYS]. *)
Fixpoint nested (h : heap) (path : list nat) (leaf top : value) : Prop :=
  match path with
  | [] => top = leaf
  | ref :: path' =>
      top = VObject ref
      /\ exists k v, k ∈ MODEL_SOURCE_KEYS /\ fields h ref = {[ k := v ]}
                     /\ nested h path' leaf v
  end.

Definition keep_truthy (r : option jsstring) : option jsstring :=
  match r with
  | Some c => if truthy c then Some c else None
  | None => None
  end.

Lemma pick_singleton (visit : value -> option jsstring) (k : jsstring) (v : value)
    (keys : list jsstring) :
  pick visit {[ k := v ]} keys
  = if bool_decide (k ∈ keys) then keep_truthy (visit v) else None.
Proof.
  induction keys as [|k0 keys IH]; simpl; [done |].
  destruct (decide (k0 = k)) as [-> | Hne].
  - rewrite lookup_singleton_eq. rewrite bool_decide_eq_true_2 by (by left).
    rewrite IH. unfold keep_truthy.
    destruct (visit v) as [c|]; [destruct (truthy c) |]; by case_bool_decide.
  - rewrite lookup_singleton_ne by congruence. rewrite IH.
    rewrite (bool_decide_ext (k ∈ k0 :: keys) (k ∈ keys)); [done |].
    rewrite elem_of_cons. split; [intros [E | E]; [congruence | done] | by right].
Qed.

Lemma normalizeModelCandidate_truthy (s : jsstring) :
  keep_truthy (normalizeModelCandidate s) = normalizeModelCandidate s.
Proof.
  destruct (normalizeModelCandidate s) as [c|] eqn:E; [|done]. simpl.
  by rewrite (model_source_truthy c (normalizeModelCandidate_source s c E)).
Qed.

Lemma nested_from_depth (h : heap) (path : list nat) (s : jsstring) :
  forall (top : value) (depth : nat),
  nested h path (VString s) top ->
  extractAvatarSource h top depth
  = if bool_decide (depth + length path <= MAX_NESTING_DEPTH)%nat
    then normalizeModelCandidate s else None.
Proof.
  induction path as [|ref path IH]; intros top depth Hn; simpl in Hn.
  - subst top. simpl. case_bool_decide.
    + apply extractAvatarSource_string. lia.
    + apply extractAvatarSource_deep. lia.
  - destruct Hn as (-> & k & v & Hk & Hf & Hn).
    destruct (decide (depth <= MAX_NESTING_DEPTH)%nat) as [Hd | Hd].
    + rewrite extractAvatarSource_object by done. rewrite Hf, pick_singleton.
      rewrite (bool_decide_eq_true_2 _ Hk), (IH v (S depth) Hn). simpl length.
      destruct (decide (depth + S (length path) <= MAX_NESTING_DEPTH)%nat).
      * rewrite !bool_decide_eq_true_2 by lia. apply normalizeModelCandidate_truthy.
      * rewrite !bool_decide_eq_false_2 by lia. done.
    + rewrite extractAvatarSource_deep by lia. simpl length.
      rewrite bool_decide_eq_false_2 by lia. done.
Qed.

(** X5: a string that lies under a chain of single-property objects is
    examined when at most [MAX_NESTING_DEPTH] = 4 objects enclose it, and
    then decides the result as if it were passed alone; under five or more
    the result is null. *)
Theorem extractAvatarSource_nesting_limit (h : heap) (path : list nat)
    (s : jsstring) (top : value) :
  nested h path (VString s) top ->
  extractAvatarSource h top 0
  = if bool_decide (length path <= MAX_NESTING_DEPTH)%nat
    then normalizeModelCandidate s else None.
Proof. intros Hn. by rewrite (nested_from_depth h path s top 0 Hn). Qed.

Definition five_deep : heap :=
  {[ 0%nat := {[ js "source" := VObject 1 ]};
     1%nat := {[ js "model" := VObject 2 ]};
     2%nat := {[ js "value" := VObject 3 ]};
     3%nat := {[ js "src" := VObject 4 ]};
     4%nat := {[ js "url" := VString (js "https://a.example/deep.glb") ]} ]}.

Ltac hop k v :=
  split; [reflexivity |]; exists (js k), v;
  split; [compute_done |]; split; [vm_compute; reflexivity |].

Lemma extractAvatarSource_nesting_limit_witness :
  extractAvatarSource five_deep (VObject 1) 0 = Some (js "https://a.example/deep.glb")
  /\ extractAvatarSource five_deep (VObject 0) 0 = None.
Proof.
  split.
  - apply (extractAvatarSource_nesting_limit five_deep [1; 2; 3; 4]%nat
             (js "https://a.example/deep.glb")).
    simpl. hop "model"%string (VObject 2). hop "value"%string (VObject 3).
    hop "src"%string (VObject 4).
    hop "url"%string (VString (js "https://a.example/deep.glb")). reflexivity.
  - apply (extractAvatarSource_nesting_limit five_deep [0; 1; 2; 3; 4]%nat
             (js "https://a.example/deep.glb")).
    simpl. hop "source"%string (VObject 1).
    hop "model"%string (VObject 2). hop "value"%string (VObject 3).
    hop "src"%string (VObject 4).
    hop "url"%string (VString (js "https://a.example/deep.glb")). reflexivity.
Defined.

End AvatarSourcesFacts.

(** ** More of screens/RatingScreen.tsx *)

Module RatingScreenFacts.
Import RatingScreen.

(** *** The handlers and derived values not covered so far *)

(** The continuation of [ensure] in the effect that seeds the presenter. *)
Definition after_seed (reply : Reply) : Prog :=
  match reply with
  | Rejected => Return
  | Fulfilled resp =>
      if error resp
      then Do (ConsoleWarn (js "failed to init current_player, falling back local")) Return
      else Return
  end.

(** The effect on [currentPlayerId] and [sortedPlayers] that seeds the first
    presenter. *)
Definition seedEffect (parse : jsstring -> option Z) (r : Render) : Prog :=
  ReadRefs (fun refs =>
    if negb (truthy_id (currentPlayerId r))
       && (0 <? Z.of_nat (length (sortedPlayers parse (players r))))
       && negb (advancingRef refs)
    then
      match JsArray.at_index (sortedPlayers parse (players r)) 0 with
      | Some next =>
          setCurrentPlayerLocal (Some (Player.id next))
            (Void (Await (updateCurrentPlayer r (Some (Player.id next))) after_seed)
               Return)
      | None => Return
      end
    else Return).

(** [nextPlayerAfterCurrent]: [None] is [null]. *)
Definition nextPlayerAfterCurrent (parse : jsstring -> option Z) (r : Render)
    : option Player.t :=
  if negb (truthy_id (currentPlayerId r)) then None
  else JsArray.at_index (sortedPlayers parse (players r)) (currentIndex parse r + 1).

(** The payload of the [scoreboard] bus event. *)
Record ScoreboardMessage := {
  gameId : option jsstring;
  round : option Z;
  standings : option (list Player.t);
}.

(** [handleScoreboard]; a payload of [None] is a falsy one. *)
Definition handleScoreboard (r : Render) (payload : option ScoreboardMessage) : Prog :=
  match payload with
  | None => Return
  | Some m =>
      ReadRefs (fun refs =>
        if negb (truthy_id (gameId m))
           || negb (bool_decide (gameId m = Some (Game.id (game r))))
           || finishedRef refs
        then Return
        else
          stopTimers
            (WriteFinished true
               (Do (OnShowScoreboard (currentGame r) (default (players r) (standings m)))
                  Return)))
  end.

(** The updater that the countdown interval passes to [setVoteCountdown]:
    the value it returns, and what it runs. *)
Definition tick_value (previous : Z) : Z :=
  if previous <=? 1 then 0 else previous - 1.

Definition countdownTick (parse : jsstring -> option Z) (r : Render) (previous : Z) : Prog :=
  if previous <=? 1 then countdownExpired parse r
  else Do (SetVoteCountdown (previous - 1)) Return.

(** [n] ticks in a row on a countdown that stands at [previous]. *)
Fixpoint ticks (parse : jsstring -> option Z) (r : Render) (n : nat) (previous : Z)
    (w : World) : Z * World :=
  match n with
  | O => (previous, w)
  | S n' =>
      ticks parse r n' (tick_value previous)
            (run_sync (countdownTick parse r previous) w)
  end.

Definition is_issued (i : Item) : bool :=
  match i with Issued _ => true | _ => false end.

Definition is_show (i : Item) : bool :=
  match i with Did (OnShowScoreboard _ _) => true | _ => false end.

Section Facts.
Variable Date_parse : jsstring -> option Z.

#[local] Abbreviation sorted r := (sortedPlayers Date_parse (players r)).

(** *** Seeding the first presenter *)

Lemma sortedPlayers_head_least (ps : list Player.t) (first : Player.t) rest :
  sortedPlayers Date_parse ps = first :: rest ->
  first ∈ ps
  /\ (Forall (dated Date_parse) ps ->
      forall p, p ∈ ps -> joined Date_parse first <= joined Date_parse p).
Proof.
  intros Hs. pose proof (sortedPlayers_perm Date_parse ps) as Hp. split.
  - rewrite <- Hp, Hs. by left.
  - intros Hd p Hin.
    pose proof (JsArray.sort_sorted (joined Date_parse) ps) as Hsorted.
    rewrite <- (sortedPlayers_by_joined Date_parse ps Hd), Hs in Hsorted.
    rewrite <- Hp, Hs in Hin. apply elem_of_cons in Hin as [-> | Hin]; [lia |].
    apply StronglySorted_inv in Hsorted as [_ Hall].
    rewrite Forall_forall in Hall. by apply Hall.
Qed.

(** X6: when no presenter is set, players exist and no advance is in
    flight, the seeding effect makes the first player of the turn order the
    presenter, locally at once and in the store by a write it does not wait
    for, and leaves the guards alone; where every [created_at] parses, that
    player is one with the least time.  When a presenter is set, when there
    is no player, or while an advance is in flight, the effect does
    nothing. *)
Theorem seedEffect_seeds_earliest (r : Render) (w : World) :
  (truthy_id (currentPlayerId r) = false ->
   players r <> [] ->
   advancingRef (refs w) = false ->
   exists first,
     sorted r !! 0%nat = Some first
     /\ first ∈ players r
     /\ (Forall (dated Date_parse) (players r) ->
         forall p, p ∈ players r -> joined Date_parse first <= joined Date_parse p)
     /\ trace (run_sync (seedEffect Date_parse r) w)
        = trace w ++ [ Did (SetCurrentPlayerId (Some (Player.id first)));
                       Did (SetCurrentGame_current_player (Some (Player.id first)));
                       Issued (updateCurrentPlayer r (Some (Player.id first))) ]
     /\ refs (run_sync (seedEffect Date_parse r) w) = refs w)
  /\ (truthy_id (currentPlayerId r) = true \/ players r = []
      \/ advancingRef (refs w) = true ->
      run_sync (seedEffect Date_parse r) w = w).
Proof.
  split.
  - intros Hcur Hps Hadv. unfold seedEffect. cbn [run_sync]. rewrite Hcur, Hadv.
    destruct (sorted r) as [|first rest] eqn:Hs.
    { exfalso. apply Hps. apply length_zero_iff_nil.
      by rewrite <- (sortedPlayers_length Date_parse), Hs. }
    destruct (sortedPlayers_head_least _ _ _ Hs) as [Hin Hleast].
    exists first. repeat split; try done.
    simpl. by rewrite <- !app_assoc.
  - intros H. unfold seedEffect. cbn [run_sync].
    destruct H as [-> | [Hps | ->]]; [done | | by rewrite !andb_false_r].
    assert (Hs : sorted r = []).
    { apply length_zero_iff_nil. by rewrite sortedPlayers_length, Hps. }
    rewrite Hs. simpl. by rewrite andb_false_r.
Qed.

(** *** The successor in the turn order *)

Lemma findIndex_from_at {A} (f : A -> bool) (l : list A) :
  forall (i : nat) (x : A) (k : Z),
  l !! i = Some x -> f x = true ->
  (forall j y, (j < i)%nat -> l !! j = Some y -> f y = false) ->
  JsArray.findIndex_from f l k = k + Z.of_nat i.
Proof.
  induction l as [|a l IH]; intros i x k Hi Hx Hbefore; [done |].
  destruct i as [|i]; simpl in *.
  - injection Hi as ->. rewrite Hx. lia.
  - rewrite (Hbefore 0%nat a) by (done || lia).
    rewrite (IH i x (k + 1)); [lia | done | done |].
    intros j y Hj Hy. apply (Hbefore (S j)); [lia | done].
Qed.

Lemma currentIndex_at (r : Render) (i : nat) (p : Player.t) :
  sorted r !! i = Some p ->
  NoDup (Player.id <$> players r) ->
  currentPlayerId r = Some (Player.id p) ->
  currentIndex Date_parse r = Z.of_nat i.
Proof.
  intros Hi Hnd Hcur. unfold currentIndex, JsArray.findIndex.
  assert (Hnd' : NoDup (Player.id <$> sorted r))
    by (by rewrite (sortedPlayers_perm Date_parse)).
  rewrite (findIndex_from_at (is_current r) (sorted r) i p 0 Hi); [lia | |].
  - unfold is_current. apply bool_decide_eq_true. by rewrite Hcur.
  - intros j y Hj Hy. unfold is_current. apply bool_decide_eq_false.
    rewrite Hcur. intros [= E].
    assert (j = i); [|lia].
    apply (NoDup_lookup _ j i (Player.id p) Hnd').
    + rewrite list_lookup_fmap, Hy. simpl. by rewrite E.
    + by rewrite list_lookup_fmap, Hi.
Qed.

Lemma at_index_succ {A} (l : list A) (i : nat) :
  JsArray.at_index l (Z.of_nat i + 1) = l !! S i.
Proof.
  unfold JsArray.at_index. replace (Z.of_nat i + 1 <? 0) with false
    by (symmetry; apply Z.ltb_ge; lia).
  f_equal. lia.
Qed.

(** X7: with unique player ids, while the player at position [i] of the
    turn order presents, the player shown as next is the one at position
    [i + 1], and an advance with the guard clear moves to exactly that
    player: local presenter, restarted countdown and the store write, in
    this order.  After the last position there is no next player and the
    advance is the round finish, entered with the advance guard set. *)
Theorem advance_follows_turn_order (r : Render) (w : World) (i : nat) (p : Player.t) :
  sorted r !! i = Some p ->
  NoDup (Player.id <$> players r) ->
  currentPlayerId r = Some (Player.id p) ->
  truthy (Player.id p) = true ->
  advancingRef (refs w) = false ->
  nextPlayerAfterCurrent Date_parse r = sorted r !! S i
  /\ match sorted r !! S i with
     | Some q =>
         trace (run_sync (advanceToNextPlayer Date_parse r) w)
         = trace w ++ [ Did (SetCurrentPlayerId (Some (Player.id q)));
                        Did (SetCurrentGame_current_player (Some (Player.id q)));
                        Did ClearCountdown;
                        Did (SetVoteCountdown PRESENTATION_DURATION_SECONDS);
                        Did StartCountdown;
                        Issued (updateCurrentPlayer r (Some (Player.id q))) ]
     | None =>
         run_sync (advanceToNextPlayer Date_parse r) w
         = run_sync (handleFinishRound r)
             (with_refs w {| advancingRef := true;
                             finishedRef := finishedRef (refs w) |})
     end.
Proof.
  intros Hi Hnd Hcur Hid Hadv.
  pose proof (currentIndex_at r i p Hi Hnd Hcur) as Hidx. split.
  - unfold nextPlayerAfterCurrent. rewrite Hcur. simpl. rewrite Hid. simpl.
    by rewrite Hidx, at_index_succ.
  - unfold advanceToNextPlayer. cbn [run_sync]. rewrite Hadv. cbv zeta.
    rewrite Hidx.
    replace (Z.of_nat i >=? 0) with true by (symmetry; apply Z.geb_le; lia).
    rewrite at_index_succ.
    destruct (sorted r !! S i) as [q|] eqn:Hq.
    + apply lookup_lt_Some in Hq.
      replace (Z.of_nat i + 1 >=? Z.of_nat (length (sorted r))) with false
        by (symmetry; rewrite Z.geb_leb; apply Z.leb_gt; lia).
      simpl. by rewrite <- !app_assoc.
    + apply lookup_ge_None in Hq.
      replace (Z.of_nat i + 1 >=? Z.of_nat (length (sorted r))) with true
        by (symmetry; apply Z.geb_le; lia).
      reflexivity.
Qed.

(** *** After the round has finished on a client *)

(** The handlers that check [finishedRef], from any render, and the
    settling of a request. *)
Definition quiet_event (e : Event) : Prop :=
  match e with
  | Invoke p =>
      exists r,
        p = handleFinishRound r
        \/ p = refreshVoteCountAndMaybeAdvance Date_parse r
        \/ p = submitCurrentVote Date_parse r
        \/ p = countdownExpired Date_parse r
        \/ exists m, p = handleScoreboard r m
  | Settle _ _ => True
  end.

Record same_but_timers (w w' : World) : Prop := {
  same_refs : refs w' = refs w;
  same_store : store w' = store w;
  same_pending : pending w' = pending w;
  same_issued : occurrences is_issued (trace w') = occurrences is_issued (trace w);
  same_shown : occurrences is_show (trace w') = occurrences is_show (trace w);
  same_presenter : occurrences is_advance (trace w') = occurrences is_advance (trace w);
}.

Lemma same_but_timers_refl w : same_but_timers w w.
Proof. by split. Qed.

Lemma quiet_step (w0 w : World) (e : Event) :
  finishedRef (refs w0) = true -> pending w0 = [] ->
  same_but_timers w0 w -> quiet_event e -> same_but_timers w0 (step w e).
Proof.
  intros Hfin Hpend Hsame He.
  assert (Hfin' : finishedRef (refs w) = true) by (by rewrite (same_refs _ _ Hsame)).
  assert (Hpend' : pending w = []) by (by rewrite (same_pending _ _ Hsame)).
  destruct e as [p | i reply]; simpl.
  - destruct He as (r & [-> | [-> | [-> | [-> | [m ->]]]]]).
    + by rewrite handleFinishRound_guarded.
    + unfold refreshVoteCountAndMaybeAdvance.
      destruct (currentPlayerId r) as [c|]; [|done].
      destruct (truthy c); simpl; [|done]. by rewrite Hfin'.
    + unfold submitCurrentVote. cbn [run_sync].
      destruct (currentPlayer Date_parse r); [|done].
      by rewrite Hfin', orb_true_r.
    + unfold countdownExpired. cbn [run_sync]. cbn [log refs finishedRef].
      rewrite Hfin'. rewrite !andb_false_r. cbn [run_sync].
      destruct Hsame as [? ? ? Hi Hs Ha].
      split; simpl; rewrite ?occurrences_snoc; simpl; rewrite ?Nat.add_0_r; done.
    + unfold handleScoreboard. destruct m as [m|]; [|done]. cbn [run_sync].
      by rewrite Hfin', orb_true_r.
  - unfold settle. by rewrite Hpend'.
Qed.

(** X8: once [finishedRef] is set on a client with no request pending, no
    sequence of round finishes, vote-count refreshes, vote submissions,
    countdown expiries and scoreboard messages, from whatever render, issues
    a request, shows a scoreboard, moves the presenter or changes the guards
    or the game row. *)
Theorem finished_client_stays_quiet (w : World) (evs : list Event) :
  finishedRef (refs w) = true ->
  pending w = [] ->
  Forall quiet_event evs ->
  same_but_timers w (run evs w).
Proof.
  intros Hfin Hpend Hevs.
  assert (H : forall w', same_but_timers w w' -> same_but_timers w (run evs w')).
  { induction Hevs as [|e evs He _ IH]; intros w' Hw'; [done |].
    simpl. apply IH. by apply quiet_step. }
  apply H, same_but_timers_refl.
Qed.

(** *** The scoreboard message of the bus *)

(** X9: a scoreboard message for this game that reaches a client whose round
    is not finished stops the timers, sets [finishedRef] and shows the
    standings of the message, or the players prop when it carries none; the
    same client ignores every further scoreboard message, and any client
    ignores a message without a game id or for another game. *)
Theorem handleScoreboard_once (r r' : Render) (m : ScoreboardMessage)
    (again : option ScoreboardMessage) (w : World) :
  (gameId m = Some (Game.id (game r)) ->
   truthy (Game.id (game r)) = true ->
   finishedRef (refs w) = false ->
   let w1 := run_sync (handleScoreboard r (Some m)) w in
   trace w1 = trace w ++ [ Did ClearCountdown; Did ClearVotePoll;
                           Did (OnShowScoreboard (currentGame r)
                                  (default (players r) (standings m))) ]
   /\ finishedRef (refs w1) = true
   /\ advancingRef (refs w1) = advancingRef (refs w)
   /\ pending w1 = pending w
   /\ run_sync (handleScoreboard r' again) w1 = w1)
  /\ (gameId m <> Some (Game.id (game r)) ->
      run_sync (handleScoreboard r (Some m)) w = w).
Proof.
  split.
  - intros Hid Ht Hfin w1. unfold w1, handleScoreboard. cbn [run_sync].
    rewrite Hid. cbn [truthy_id]. rewrite Ht, Hfin.
    rewrite bool_decide_eq_true_2 by done. simpl.
    repeat split; try (by rewrite <- !app_assoc).
    destruct again as [m'|]; [|done]. simpl. by rewrite orb_true_r.
  - intros Hid. unfold handleScoreboard. cbn [run_sync].
    by rewrite (bool_decide_eq_false_2 _ Hid), orb_true_r.
Qed.

(** *** The countdown *)

Lemma ticks_decrement (r : Render) (n : nat) :
  forall (start : Z) (w : World),
  Z.of_nat n < start ->
  ticks Date_parse r n start w
  = (start - Z.of_nat n,
     {| refs := refs w; store := store w; pending := pending w;
        trace := trace w
                 ++ ((fun k => Did (SetVoteCountdown (start - Z.of_nat k))) <$> seq 1 n) |}).
Proof.
  induction n as [|n IH]; intros start w Hn.
  - simpl. rewrite app_nil_r, Z.sub_0_r. by destruct w.
  - cbn [ticks]. unfold countdownTick, tick_value.
    replace (start <=? 1) with false by (symmetry; apply Z.leb_gt; lia).
    rewrite IH by lia. f_equal; [lia |]. simpl. f_equal.
    rewrite <- app_assoc. f_equal. simpl. f_equal.
    rewrite <- (fmap_S_seq 1 n), <- list_fmap_compose. apply list_fmap_ext.
    intros _ k _. simpl. do 2 f_equal. lia.
Qed.

(** X10: a countdown that starts at [start] seconds only counts down during
    its first [start - 1] ticks, one second per tick and with no other
    effect, and runs the expiry on tick number [start]: after
    [PRESENTATION_DURATION_SECONDS] = 20 ticks for a presentation. *)
Theorem countdown_expires_on_last_tick (r : Render) (w : World) (start : Z) (n : nat) :
  1 <= start ->
  Z.of_nat n < start ->
  ticks Date_parse r n start w
  = (start - Z.of_nat n,
     {| refs := refs w; store := store w; pending := pending w;
        trace := trace w
                 ++ ((fun k => Did (SetVoteCountdown (start - Z.of_nat k))) <$> seq 1 n) |})
  /\ (Z.of_nat n = start - 1 ->
      ticks Date_parse r (S n) start w
      = (0, run_sync (countdownExpired Date_parse r)
              (snd (ticks Date_parse r n start w)))).
Proof.
  intros Hstart Hn. split; [by apply ticks_decrement |].
  intros Hlast. revert w. generalize dependent start.
  induction n as [|n IH]; intros start Hstart Hn Hlast w.
  - assert (start = 1) as -> by lia. reflexivity.
  - assert (Hstep : forall m v u, ticks Date_parse r (S m) v u
              = ticks Date_parse r m (tick_value v)
                  (run_sync (countdownTick Date_parse r v) u)) by reflexivity.
    rewrite (Hstep (S n) start w), (Hstep n start w).
    assert (Hv : tick_value start = start - 1).
    { unfold tick_value.
      by replace (start <=? 1) with false by (symmetry; apply Z.leb_gt; lia). }
    apply IH; rewrite Hv; lia.
Qed.

End Facts.

Lemma seedEffect_seeds_earliest_witness :
  let r := render_of [P2; P0; P1] None 0 in
  exists first,
    sortedPlayers parse_sample (players r) !! 0%nat = Some first
    /\ first ∈ players r
    /\ (Forall (dated parse_sample) (players r) ->
        forall p, p ∈ players r -> joined parse_sample first <= joined parse_sample p)
    /\ trace (run_sync (seedEffect parse_sample r) (fresh game1))
       = trace (fresh game1)
         ++ [ Did (SetCurrentPlayerId (Some (Player.id first)));
              Did (SetCurrentGame_current_player (Some (Player.id first)));
              Issued (updateCurrentPlayer r (Some (Player.id first))) ]
    /\ refs (run_sync (seedEffect parse_sample r) (fresh game1)) = refs (fresh game1).
Proof.
  intros r.
  apply (seedEffect_seeds_earliest parse_sample r (fresh game1)).
  - reflexivity.
  - simpl. congruence.
  - reflexivity.
Defined.

Lemma advance_follows_turn_order_witness :
  let r := render_of [P2; P0; P1] (Some (js "p0")) 0 in
  nextPlayerAfterCurrent parse_sample r
  = sortedPlayers parse_sample (players r) !! 1%nat.
Proof.
  intros r.
  refine (proj1 (advance_follows_turn_order parse_sample r (fresh game1) 0%nat P0
                   _ _ _ _ _)).
  - reflexivity.
  - change (NoDup (Player.id <$> [P2; P0; P1])). compute_done.
  - reflexivity.
  - reflexivity.
  - reflexivity.
Defined.

(** A client whose round has finished, with nothing pending. *)
Definition finished_client : World :=
  {| refs := {| advancingRef := false; finishedRef := true |};
     store := game1; pending := []; trace := [] |}.

Lemma finished_client_stays_quiet_witness :
  let r := render_of [P0; P1; P2] (Some (js "p2")) 4 in
  same_but_timers finished_client
    (run [Invoke (handleFinishRound r);
          Invoke (submitCurrentVote parse_sample r);
          Invoke (countdownExpired parse_sample r);
          Invoke (refreshVoteCountAndMaybeAdvance parse_sample r);
          Settle 0 ok] finished_client).
Proof.
  intros r.
  apply (finished_client_stays_quiet parse_sample finished_client).
  - reflexivity.
  - reflexivity.
  - repeat constructor; exists r; tauto.
Defined.

Lemma handleScoreboard_once_witness :
  let r := render_of [P0; P1; P2] (Some (js "p1")) 0 in
  let m := {| gameId := Some (js "g1"); round := Some 1; standings := None |} in
  let w1 := run_sync (handleScoreboard r (Some m)) (fresh game1) in
  trace w1 = trace (fresh game1)
             ++ [ Did ClearCountdown; Did ClearVotePoll;
                  Did (OnShowScoreboard (currentGame r)
                         (default (players r) (standings m))) ]
  /\ finishedRef (refs w1) = true
  /\ advancingRef (refs w1) = advancingRef (refs (fresh game1))
  /\ pending w1 = pending (fresh game1)
  /\ run_sync (handleScoreboard r (Some m)) w1 = w1.
Proof.
  intros r m.
  apply (handleScoreboard_once r r m (Some m) (fresh game1)); reflexivity.
Defined.

Lemma countdown_expires_on_last_tick_witness :
  let r := render_of [P0; P1; P2] (Some (js "p0")) 0 in
  ticks parse_sample r 20 PRESENTATION_DURATION_SECONDS (fresh game1)
  = (0, run_sync (countdownExpired parse_sample r)
          (snd (ticks parse_sample r 19 PRESENTATION_DURATION_SECONDS (fresh game1)))).
Proof.
  intros r.
  apply (countdown_expires_on_last_tick parse_sample r (fresh game1)
           PRESENTATION_DURATION_SECONDS 19).
  - unfold PRESENTATION_DURATION_SECONDS. lia.
  - unfold PRESENTATION_DURATION_SECONDS. lia.
  - reflexivity.
Defined.

(** *** A round finish whose requests fail *)

Definition is_announce (i : Item) : bool :=
  match i with
  | Did (OnShowScoreboard _ _) | Did (SendScoreboard _ _ _) => true
  | _ => false
  end.

(** The standings that the fetch of [handleFinishRound] gave. *)
Definition fetched (reply : Reply) : option (list Player.t) :=
  match reply with
  | Fulfilled resp => data resp
  | Rejected => None
  end.

Ltac settle_next :=
  repeat (progress (unfold run, step, settle, log, suspend, with_refs; simpl)).

(** X20: a round finish that starts with the guard clear gets through its
    three requests whatever they settle to, rejections included: the
    scoreboard is shown once, with the fetched standings or, when the fetch
    gave none, with the players prop; [advancingRef] is released,
    [finishedRef] stays set and nothing is left pending.  Nothing is sent on
    the bus: on the host the call of [streamingSocket.sendScoreboard] throws
    once the scoreboard is shown, and any other client does not reach it.
    The game row changes only if the phase update was fulfilled without
    error, so a failed update leaves the row as it was while the scoreboard
    shows. *)
Theorem handleFinishRound_survives_failures (r : Render) (w : World)
    (scores standings flip : Reply) :
  finishedRef (refs w) = false ->
  pending w = [] ->
  let w' := run [ Invoke (handleFinishRound r); Settle 0 scores;
                  Settle 0 standings; Settle 0 flip ] w in
  let final := default (players r) (fetched standings) in
  refs w' = {| advancingRef := false; finishedRef := true |}
  /\ pending w' = []
  /\ store w' = commit (UpdateGame (Game.id (game r)) scoreboard_patch) flip (store w)
  /\ List.filter is_announce (drop (length (trace w)) (trace w'))
     = [Did (OnShowScoreboard (currentGame r) final)]
  /\ last (trace w')
     = Some (if isHost r then Threw sendScoreboard_is_not_a_function
             else Did (OnShowScoreboard (currentGame r) final)).
Proof.
  destruct w as [[adv fin] g pend tr]. simpl. intros -> ->.
  destruct scores as [|rs], standings as [|rd], flip as [|rf]; settle_next;
    destruct (isHost r); settle_next;
    (repeat split; try done);
    rewrite ?last_snoc; try done;
    rewrite <- ?app_assoc, drop_app_length; reflexivity.
Qed.

Lemma handleFinishRound_survives_failures_witness :
  let r := render_of [P0; P1; P2] (Some (js "p2")) 0 in
  let w' := run [ Invoke (handleFinishRound r); Settle 0 Rejected;
                  Settle 0 Rejected; Settle 0 Rejected ] (fresh game1) in
  refs w' = {| advancingRef := false; finishedRef := true |}
  /\ pending w' = []
  /\ store w' = game1
  /\ List.filter is_announce (drop (length (trace (fresh game1))) (trace w'))
     = [Did (OnShowScoreboard game1 [P0; P1; P2])]
  /\ last (trace w') = Some (Threw sendScoreboard_is_not_a_function).
Proof.
  intros r.
  apply (handleFinishRound_survives_failures r (fresh game1) Rejected Rejected Rejected);
    reflexivity.
Defined.

(** *** Voting below the quorum *)

(** What counting and submitting votes leave in a trace. *)
Definition is_vote_item (i : Item) : bool :=
  match i with
  | Did (SetCurrentTargetVoteCount _) | Did (SetHasVoted _) | Did (ConsoleWarn _)
  | Issued (CountVotes _ _ _) | Issued (SubmitVote _ _ _ _)
  | Settled (CountVotes _ _ _) _ | Settled (SubmitVote _ _ _ _) _ => true
  | _ => false
  end.

Section Quorum.
Variable Date_parse : jsstring -> option Z.
Variable ps : list Player.t.

(** A reply that does not report the quorum: the request was rejected, it
    came back with an error, or its count is below [expectedVotes]. *)
Definition below (reply : Reply) : Prop :=
  match reply with
  | Rejected => True
  | Fulfilled resp =>
      error resp = true \/ default 0 (count resp) < expectedVotes Date_parse ps
  end.

(** Polls and vote submissions of renders over the players [ps], and replies
    below the quorum. *)
Definition voting_event (e : Event) : Prop :=
  match e with
  | Invoke p =>
      exists r, players r = ps
                /\ (p = refreshVoteCountAndMaybeAdvance Date_parse r
                    \/ p = submitCurrentVote Date_parse r)
  | Settle _ reply => below reply
  end.

Definition vote_task (t : Task) : Prop :=
  exists r, players r = ps
            /\ ((exists g n target, awaiting t = CountVotes g n target)
                   /\ resume t = after_count Date_parse r
                \/ (exists g n target stars, awaiting t = SubmitVote g n target stars)
                   /\ resume t = after_submit Date_parse r).

Record only_votes (w0 w : World) : Prop := {
  votes_refs : refs w = refs w0;
  votes_store : store w = store w0;
  votes_pending : Forall vote_task (pending w);
  votes_trace : exists tr, trace w = trace w0 ++ tr
                           /\ Forall (fun i => is_vote_item i = true) tr;
}.

Lemma only_votes_log (w0 w : World) (i : Item) :
  only_votes w0 w -> is_vote_item i = true -> only_votes w0 (log w i).
Proof.
  intros [Hr Hs Hp (tr & Ht & Hv)] Hi. split; try done.
  exists (tr ++ [i]). simpl. rewrite Ht, app_assoc. split; [done |].
  apply Forall_app. split; [done |]. by apply Forall_singleton.
Qed.

Lemma only_votes_suspend (w0 w : World) (t : Task) :
  only_votes w0 w -> vote_task t -> only_votes w0 (suspend w t).
Proof.
  intros [Hr Hs Hp (tr & Ht & Hv)] Htask. split; try done.
  - simpl. apply Forall_app. split; [done |]. by apply Forall_singleton.
  - exists (tr ++ [Issued (awaiting t)]). simpl. rewrite Ht, app_assoc.
    split; [done |]. apply Forall_app. split; [done |]. apply Forall_singleton.
    destruct Htask as (r & _ & [[(g & n & tg & ->) _] | [(g & n & tg & st & ->) _]]);
      done.
Qed.

Lemma only_votes_refresh (w0 w : World) (r : Render) :
  players r = ps -> only_votes w0 w ->
  only_votes w0 (run_sync (refreshVoteCountAndMaybeAdvance Date_parse r) w).
Proof.
  intros Hps H. unfold refreshVoteCountAndMaybeAdvance.
  destruct (currentPlayerId r) as [target|]; [|done].
  destruct (truthy target); [|done]. cbn [negb run_sync].
  destruct (finishedRef (refs w)); [done |]. cbn [run_sync].
  apply only_votes_suspend; [done |]. exists r. split; [done |]. left. eauto.
Qed.

Lemma only_votes_step (w0 w : World) (e : Event) :
  only_votes w0 w -> voting_event e -> only_votes w0 (step w e).
Proof.
  intros H He. destruct e as [p | i reply]; simpl.
  - destruct He as (r & Hps & [-> | ->]); [by apply only_votes_refresh |].
    unfold submitCurrentVote. cbn [run_sync].
    destruct (currentPlayer Date_parse r) as [target|]; [|done].
    destruct ((selectedStars r =? 0) || finishedRef (refs w)); [done |].
    cbn [run_sync]. apply only_votes_suspend.
    + by apply only_votes_log.
    + exists r. split; [done |]. right. eauto 10.
  - unfold settle. destruct (pending w !! i) as [t|] eqn:Hi; [|done].
    pose proof (votes_pending _ _ H) as Hall.
    pose proof (Forall_lookup_1 _ _ _ _ Hall Hi) as (r & Hps & Htask).
    assert (Hstore : commit (awaiting t) reply (store w) = store w).
    { destruct Htask as [[(g & n & tg & ->) _] | [(g & n & tg & st & ->) _]]; done. }
    assert (Hsettled : is_vote_item (Settled (awaiting t) reply) = true).
    { destruct Htask as [[(g & n & tg & ->) _] | [(g & n & tg & st & ->) _]]; done. }
    rewrite Hstore.
    assert (H1 : only_votes w0
              {| refs := refs w; store := store w; pending := delete i (pending w);
                 trace := trace w ++ [Settled (awaiting t) reply] |}).
    { destruct H as [Hr Hs Hp (tr & Ht & Hv)]. split; try done.
      - simpl. by apply Forall_delete.
      - exists (tr ++ [Settled (awaiting t) reply]). simpl. rewrite Ht, app_assoc.
        split; [done |]. apply Forall_app. split; [done |]. by apply Forall_singleton. }
    destruct Htask as [[_ ->] | [_ ->]].
    + unfold after_count. destruct reply as [|resp]; [done |].
      destruct (error resp) eqn:Herr; cbn [run_sync].
      { by apply only_votes_log. }
      destruct He as [He | He]; [congruence |].
      rewrite Hps.
      replace (default 0 (count resp) >=? expectedVotes Date_parse ps) with false
        by (symmetry; rewrite Z.geb_leb; apply Z.leb_gt; lia).
      cbn [andb run_sync]. by apply only_votes_log.
    + unfold after_submit. destruct reply as [|resp]; cbn [run_sync].
      * apply only_votes_log; [by apply only_votes_log | done].
      * by apply only_votes_refresh.
Qed.

(** X21: as long as no count query reports the quorum, polling and voting
    do nothing but count: whatever polls and vote submissions the renders
    over a set of players start, and however their requests settle
    (rejected, with an error, or with a count below [expectedVotes]), the
    presenter is not moved, no timer is touched, no round finish starts,
    the guards and the game row stay as they are, and the only requests
    issued are count queries and vote submissions. *)
Theorem no_advance_below_quorum (w : World) (evs : list Event) :
  pending w = [] ->
  Forall voting_event evs ->
  refs (run evs w) = refs w
  /\ store (run evs w) = store w
  /\ exists tr, trace (run evs w) = trace w ++ tr
                /\ Forall (fun i => is_vote_item i = true) tr.
Proof.
  intros Hpend Hevs.
  assert (H : forall w', only_votes w w' -> only_votes w (run evs w')).
  { induction Hevs as [|e evs He _ IH]; intros w' Hw'; [done |].
    simpl. apply IH. by apply only_votes_step. }
  destruct (H w) as [Hr Hs _ Ht]; [|done].
  split; try done; [by rewrite Hpend | exists []; by rewrite app_nil_r].
Qed.

End Quorum.

Lemma no_advance_below_quorum_witness :
  let r := render_of [P0; P1; P2] (Some (js "p0")) 4 in
  let w' := run [ Invoke (submitCurrentVote parse_sample r); Settle 0 ok;
                  Settle 0 (counted 1) ] (fresh game1) in
  refs w' = refs (fresh game1)
  /\ store w' = game1
  /\ exists tr, trace w' = trace (fresh game1) ++ tr
                /\ Forall (fun i => is_vote_item i = true) tr.
Proof.
  intros r.
  apply (no_advance_below_quorum parse_sample [P0; P1; P2] (fresh game1)); [reflexivity |].
  apply Forall_cons. split; [exists r; split; [reflexivity | by right] |].
  apply Forall_cons. split; [right; vm_compute; reflexivity |].
  apply Forall_cons. split; [right; vm_compute; reflexivity | constructor].
Defined.

End RatingScreenFacts.

(** ** screens/RatingScreen.tsx: resolving model URLs *)

Module ModelUrl.

(** [/^https?:\/\//i.test]. *)
Definition test_http (s : jsstring) : bool :=
  startsWith_ci (js "http://") s || startsWith_ci (js "https://") s.

(** [replace(/^\/+/, '')]. *)
Fixpoint stripLeadingSlashes (s : jsstring) : jsstring :=
  match s with
  | [] => []
  | c :: s' => if (c =? 47)%N then stripLeadingSlashes s' else s
  end.

(** [replace(/\/$/, '')]: one slash at the very end. *)
Definition stripTrailingSlash (s : jsstring) : jsstring :=
  match rev s with
  | c :: r => if (c =? 47)%N then rev r else s
  | [] => s
  end.

(** The string up to its first slash, and what follows from that slash on. *)
Fixpoint break_slash (s : jsstring) : jsstring * jsstring :=
  match s with
  | [] => ([], [])
  | c :: s' =>
      if (c =? 47)%N then ([], s)
      else let '(b, t) := break_slash s' in (c :: b, t)
  end.

Definition strip_prefix (p s : jsstring) : option jsstring :=
  if startsWith p s then Some (drop (length p) s) else None.

(** The units that [.] does not match. *)
Definition isLineTerminator (c : N) : bool :=
  ((c =? 10) || (c =? 13) || (c =? 8232) || (c =? 8233))%N.

(** [(?<bucket>[^/]+)\/(?<rest>.+)$] at the current position: the bucket is
    the run up to the next slash, which must follow, and the rest runs to the
    end of the input without a line terminator. *)
Definition bucket_rest (s : jsstring) : option (jsstring * jsstring) :=
  let '(b, t) := break_slash s in
  match b, t with
  | _ :: _, _ :: rest =>
      if truthy rest && forallb (fun c => negb (isLineTerminator c)) rest
      then Some (b, rest) else None
  | _, _ => None
  end.

(** [/^(?:storage\/v1\/object\/)?(?:public\/)?(?<bucket>[^/]+)\/(?<rest>.+)$/]:
    each optional group is tried present before absent, the first group
    outermost. *)
Definition storage_match (s : jsstring) : option (jsstring * jsstring) :=
  let inner (t : jsstring) :=
    match strip_prefix (js "public/") t ≫= bucket_rest with
    | Some m => Some m
    | None => bucket_rest t
    end in
  match strip_prefix (js "storage/v1/object/") s ≫= inner with
  | Some m => Some m
  | None => inner s
  end.

(** [const [first, ...remaining] = sanitized.split('/')] with
    [remaining.join('/')]. *)
Definition split_first (s : jsstring) : jsstring * jsstring :=
  let '(b, t) := break_slash s in (b, match t with [] => [] | _ :: rest => rest end).

Section Storage.

(** [process.env.EXPO_PUBLIC_SUPABASE_URL ?? process.env.SUPABASE_URL ?? null]. *)
Variable SUPABASE_PROJECT_URL : option jsstring.

(** [supabase.storage.from(bucket).getPublicUrl(objectPath).data?.publicUrl];
    [None] when the call throws or gives none. *)
Variable getPublicUrl : jsstring -> jsstring -> option jsstring.

Definition when_truthy (o : option jsstring) : option jsstring :=
  match o with
  | Some s => if truthy s then Some s else None
  | None => None
  end.

Definition SUPABASE_PROJECT_BASE : option jsstring :=
  stripTrailingSlash <$> when_truthy SUPABASE_PROJECT_URL.

Definition SUPABASE_STORAGE_ROOT : option jsstring :=
  (fun base => base ++ js "/storage/v1/object") <$> when_truthy SUPABASE_PROJECT_BASE.

Definition SUPABASE_PUBLIC_STORAGE_ROOT : option jsstring :=
  (fun root => root ++ js "/public") <$> when_truthy SUPABASE_STORAGE_ROOT.

(** The public URL of an object: what the storage client says, or else the
    URL put together from the project URL. *)
Definition object_url (bucket objectPath : jsstring) : option jsstring :=
  match when_truthy (getPublicUrl bucket objectPath) with
  | Some publicUrl => Some publicUrl
  | None =>
      match when_truthy SUPABASE_PUBLIC_STORAGE_ROOT with
      | Some root => Some (root ++ js "/" ++ bucket ++ js "/" ++ objectPath)
      | None =>
          match when_truthy SUPABASE_STORAGE_ROOT with
          | Some root => Some (root ++ js "/" ++ bucket ++ js "/" ++ objectPath)
          | None => None
          end
      end
  end.

Definition deriveSupabaseUrlFromStoragePath (pathValue : jsstring) : option jsstring :=
  let trimmed := trim pathValue in
  if negb (truthy trimmed) then None
  else if test_http trimmed then Some trimmed
  else
    let sanitized := stripLeadingSlashes trimmed in
    if negb (truthy sanitized) then None
    else
      let '(bucket, objectPath) :=
        match storage_match sanitized with
        | Some m => m
        | None => split_first sanitized
        end in
      if negb (truthy bucket) || negb (truthy objectPath) then None
      else object_url bucket objectPath.

(** [string | null | undefined] in, [string | null] out. *)
Definition ensureModelUrl (rawValue : option jsstring) : option jsstring :=
  match when_truthy rawValue with
  | None => None
  | Some raw =>
      let trimmed := trim raw in
      if test_http trimmed then Some trimmed
      else deriveSupabaseUrlFromStoragePath trimmed
  end.

(** *** Strings with and without slashes *)

Definition no_slash (s : jsstring) : Prop := forallb (fun c => negb (c =? 47)%N) s = true.

(** Neither end is white space. *)
Definition tight (s : jsstring) : Prop :=
  match s with c :: _ => isWhiteSpace c = false | [] => False end
  /\ match rev s with c :: _ => isWhiteSpace c = false | [] => False end.

Lemma break_slash_no_slash (s : jsstring) : no_slash s -> break_slash s = (s, []).
Proof.
  unfold no_slash. induction s as [|c s IH]; simpl; [done |].
  intros H. apply andb_true_iff in H as [Hc H].
  apply negb_true_iff in Hc. rewrite Hc. by rewrite IH.
Qed.

Lemma break_slash_at (b t : jsstring) :
  no_slash b -> break_slash (b ++ 47%N :: t) = (b, 47%N :: t).
Proof.
  unfold no_slash. induction b as [|c b IH]; simpl; [done |].
  intros H. apply andb_true_iff in H as [Hc H].
  apply negb_true_iff in Hc. rewrite Hc. by rewrite IH.
Qed.

Lemma strip_prefix_app (pre t : jsstring) : strip_prefix pre (pre ++ t) = Some t.
Proof.
  unfold strip_prefix.
  assert (H : startsWith pre (pre ++ t) = true)
    by (apply AvatarSources.startsWith_app; by exists t).
  by rewrite H, drop_app_length.
Qed.

(** A prefix whose first segment is [seg] only fits a string whose first
    segment is [seg]. *)
Lemma strip_prefix_other_segment (seg more b t : jsstring) :
  no_slash seg -> no_slash b -> b <> seg ->
  strip_prefix (seg ++ 47%N :: more) (b ++ 47%N :: t) = None.
Proof.
  intros Hseg Hb Hne. unfold strip_prefix.
  destruct (startsWith _ _) eqn:E; [|done].
  apply AvatarSources.startsWith_app in E as [u E].
  assert (Hbr : break_slash (b ++ 47%N :: t) = break_slash (seg ++ 47%N :: more ++ u)).
  { rewrite E. by rewrite <- app_assoc. }
  rewrite !break_slash_at in Hbr by done. congruence.
Qed.

Lemma startsWith_ci_slash (p1 p2 t : jsstring) :
  startsWith_ci (p1 ++ 47%N :: p2) t = true -> ~ no_slash t.
Proof.
  unfold no_slash. revert t.
  induction p1 as [|c p1 IH]; intros [|d t]; cbn [app startsWith_ci forallb]; try done.
  - change (canonicalize 47) with 47%N.
    rewrite andb_true_iff. intros [Hc _] H. apply andb_true_iff in H as [Hd _].
    apply N.eqb_eq in Hc. apply negb_true_iff, N.eqb_neq in Hd.
    unfold canonicalize in Hc.
    destruct ((97 <=? d)%N && (d <=? 122)%N) eqn:Hr; [|congruence].
    apply andb_true_iff in Hr as [H1 H2]. apply N.leb_le in H1, H2. lia.
  - rewrite andb_true_iff. intros [_ Hrest] H. apply andb_true_iff in H as [_ H].
    by apply (IH t).
Qed.

Lemma startsWith_slash (p1 p2 t : jsstring) :
  startsWith (p1 ++ 47%N :: p2) t = true -> ~ no_slash t.
Proof.
  intros E Hn. apply AvatarSources.startsWith_app in E as [u ->].
  unfold no_slash in Hn. rewrite forallb_app in Hn.
  apply andb_true_iff in Hn as [Hn _]. rewrite forallb_app in Hn.
  apply andb_true_iff in Hn as [_ Hn]. simpl in Hn. done.
Qed.

Lemma test_http_needs_slash (t : jsstring) : no_slash t -> test_http t = false.
Proof.
  intros Hn. unfold test_http. apply orb_false_iff. split; apply not_true_is_false.
  - intros E. by apply (startsWith_ci_slash (js "http:") (js "/") t).
  - intros E. by apply (startsWith_ci_slash (js "https:") (js "/") t).
Qed.

Lemma strip_prefix_needs_slash (p1 p2 t : jsstring) :
  no_slash t -> strip_prefix (p1 ++ 47%N :: p2) t = None.
Proof.
  intros Hn. unfold strip_prefix. destruct (startsWith _ _) eqn:E; [|done].
  by destruct (startsWith_slash p1 p2 t E).
Qed.

Lemma storage_match_needs_slash (t : jsstring) : no_slash t -> storage_match t = None.
Proof.
  intros Hn. unfold storage_match.
  assert (H1 : strip_prefix (js "storage/v1/object/") t = None)
    by apply (strip_prefix_needs_slash (js "storage") (js "v1/object/") t Hn).
  assert (H2 : strip_prefix (js "public/") t = None)
    by apply (strip_prefix_needs_slash (js "public") [] t Hn).
  rewrite H1, H2. simpl.
  unfold bucket_rest. rewrite break_slash_no_slash by done. by destruct t.
Qed.

Lemma stripLeadingSlashes_no_slash (t : jsstring) :
  no_slash t -> stripLeadingSlashes t = t.
Proof.
  unfold no_slash. destruct t as [|c t]; simpl; [done |].
  intros H. apply andb_true_iff in H as [Hc _]. apply negb_true_iff in Hc. by rewrite Hc.
Qed.

Lemma trimStart_no_slash (s : jsstring) : no_slash s -> no_slash (trimStart s).
Proof.
  unfold no_slash. induction s as [|c s IH]; simpl; [done |].
  intros H. destruct (isWhiteSpace c); [|exact H].
  apply andb_true_iff in H as [_ H]. by apply IH.
Qed.

Lemma rev_no_slash (s : jsstring) : no_slash s -> no_slash (rev s).
Proof.
  unfold no_slash. rewrite !forallb_forall. intros H c Hc. apply H. by apply in_rev.
Qed.

Lemma trim_no_slash (s : jsstring) : no_slash s -> no_slash (trim s).
Proof.
  intros H. unfold trim, trimEnd.
  by apply rev_no_slash, trimStart_no_slash, rev_no_slash, trimStart_no_slash.
Qed.

(** X11: a value without any slash, such as a bare file name, resolves to
    null, whatever the storage client answers and whatever project URL is
    configured. *)
Theorem ensureModelUrl_needs_a_slash (raw : jsstring) :
  no_slash raw -> ensureModelUrl (Some raw) = None.
Proof.
  intros Hn. unfold ensureModelUrl. simpl.
  destruct (truthy raw); [|done].
  pose proof (trim_no_slash raw Hn) as Ht.
  rewrite (test_http_needs_slash _ Ht).
  unfold deriveSupabaseUrlFromStoragePath.
  rewrite AvatarSourcesFacts.trim_idempotent.
  destruct (truthy (trim raw)) eqn:Etr; [|done]. cbn [negb].
  rewrite (test_http_needs_slash _ Ht), (stripLeadingSlashes_no_slash _ Ht), Etr.
  cbn [negb]. rewrite (storage_match_needs_slash _ Ht).
  unfold split_first. rewrite (break_slash_no_slash _ Ht). cbn [truthy negb].
  by rewrite orb_true_r.
Qed.

(** X3: an absolute http or https URL, in any letter case of the scheme,
    comes back without the white space around it and otherwise unchanged;
    neither the storage client nor the project URL plays a part. *)
Theorem ensureModelUrl_absolute (pre u post : jsstring) :
  AvatarSourcesFacts.white pre -> AvatarSourcesFacts.white post ->
  AvatarSourcesFacts.trimmed u ->
  test_http u = true ->
  ensureModelUrl (Some (pre ++ u ++ post)) = Some u.
Proof.
  intros Hpre Hpost Hu Hhttp.
  assert (Hne : truthy (pre ++ u ++ post) = true).
  { destruct u as [|c u]; [done |]. by destruct pre. }
  unfold ensureModelUrl. simpl. rewrite Hne.
  rewrite (AvatarSourcesFacts.trim_white_around pre u post Hpre Hpost).
  by rewrite (AvatarSourcesFacts.trimmed_trim u Hu), Hhttp.
Qed.

(** *** The spellings of one object *)

(** A bucket name and an object path as the pattern captures them. *)
Record object_name (b p : jsstring) : Prop := {
  bucket_truthy : truthy b = true;
  bucket_no_slash : no_slash b;
  bucket_not_public : b <> js "public";
  bucket_not_storage : b <> js "storage";
  bucket_head : match b with c :: _ => isWhiteSpace c = false | [] => False end;
  path_truthy : truthy p = true;
  path_one_line : forallb (fun c => negb (isLineTerminator c)) p = true;
  path_last : match rev p with c :: _ => isWhiteSpace c = false | [] => False end;
  not_absolute : test_http (b ++ 47%N :: p) = false;
}.

Definition spellings (b p : jsstring) : list jsstring :=
  [ b ++ 47%N :: p;
    js "/" ++ b ++ 47%N :: p;
    js "public/" ++ b ++ 47%N :: p;
    js "/public/" ++ b ++ 47%N :: p;
    js "storage/v1/object/" ++ b ++ 47%N :: p;
    js "storage/v1/object/public/" ++ b ++ 47%N :: p;
    js "/storage/v1/object/public/" ++ b ++ 47%N :: p ].

Lemma bucket_rest_name (b p : jsstring) :
  object_name b p -> bucket_rest (b ++ 47%N :: p) = Some (b, p).
Proof.
  intros H. unfold bucket_rest. rewrite (break_slash_at b p (bucket_no_slash _ _ H)).
  pose proof (bucket_truthy _ _ H) as Hb. destruct b as [|c b]; [done |].
  by rewrite (path_truthy _ _ H), (path_one_line _ _ H).
Qed.

Lemma storage_match_name (b p : jsstring) (pre : jsstring) :
  object_name b p ->
  pre ∈ [ []; js "public/"; js "storage/v1/object/"; js "storage/v1/object/public/" ] ->
  storage_match (pre ++ b ++ 47%N :: p) = Some (b, p).
Proof.
  intros H Hpre. pose proof (bucket_rest_name b p H) as Hbr.
  assert (Hpub : strip_prefix (js "public/") (b ++ 47%N :: p) = None).
  { apply (strip_prefix_other_segment (js "public") [] b p); [done | apply H | apply H]. }
  assert (Hsto : strip_prefix (js "storage/v1/object/") (b ++ 47%N :: p) = None).
  { apply (strip_prefix_other_segment (js "storage") (js "v1/object/") b p);
      [done | apply H | apply H]. }
  assert (Hsp : strip_prefix (js "storage/v1/object/") (js "public/" ++ b ++ 47%N :: p)
                = None) by reflexivity.
  assert (Hpp : strip_prefix (js "public/") (js "public/" ++ b ++ 47%N :: p)
                = Some (b ++ 47%N :: p)) by apply strip_prefix_app.
  assert (Hss : strip_prefix (js "storage/v1/object/")
                  (js "storage/v1/object/" ++ b ++ 47%N :: p)
                = Some (b ++ 47%N :: p)) by apply strip_prefix_app.
  assert (Hsq : strip_prefix (js "storage/v1/object/")
                  (js "storage/v1/object/public/" ++ b ++ 47%N :: p)
                = Some (js "public/" ++ b ++ 47%N :: p))
    by apply (strip_prefix_app (js "storage/v1/object/") (js "public/" ++ b ++ 47%N :: p)).
  apply list_elem_of_In in Hpre. cbn [In] in Hpre.
  destruct Hpre as [<- | [<- | [<- | [<- | []]]]]; unfold storage_match.
  - rewrite app_nil_l, Hsto. cbn [mbind option_bind]. by rewrite Hpub, Hbr.
  - rewrite Hsp. cbn [mbind option_bind]. rewrite Hpp. cbn [mbind option_bind].
    by rewrite Hbr.
  - rewrite Hss. cbn [mbind option_bind]. rewrite Hpub. cbn [mbind option_bind].
    by rewrite Hbr.
  - rewrite Hsq. cbn [mbind option_bind]. rewrite Hpp. cbn [mbind option_bind].
    by rewrite Hbr.
Qed.

Lemma tight_trim (s : jsstring) : tight s -> trim s = s.
Proof.
  intros [H1 H2]. apply AvatarSourcesFacts.trimmed_trim. split.
  - destruct s; [done | simpl; by rewrite H1].
  - destruct (rev s); [done | simpl; by rewrite H2].
Qed.

Lemma spelling_tight (b p pre : jsstring) :
  object_name b p ->
  match pre ++ b with c :: _ => isWhiteSpace c = false | [] => False end ->
  tight (pre ++ b ++ 47%N :: p).
Proof.
  intros H Hhead. split.
  - rewrite app_assoc. destruct (pre ++ b); [done | exact Hhead].
  - rewrite app_assoc. change (47%N :: p) with ([47%N] ++ p).
    rewrite app_assoc, rev_app_distr.
    pose proof (path_last _ _ H) as Hl. destruct (rev p); [done | exact Hl].
Qed.

Lemma resolve_spelling (s b p : jsstring) :
  object_name b p ->
  tight s -> test_http s = false ->
  storage_match (stripLeadingSlashes s) = Some (b, p) ->
  truthy (stripLeadingSlashes s) = true ->
  ensureModelUrl (Some s) = object_url b p.
Proof.
  intros H Ht Hhttp Hm Hs. unfold ensureModelUrl.
  assert (Htr : truthy s = true) by (destruct Ht as [Ht _]; by destruct s).
  simpl. rewrite Htr, (tight_trim s Ht), Hhttp.
  unfold deriveSupabaseUrlFromStoragePath.
  rewrite (tight_trim s Ht), Htr, Hhttp, Hs, Hm. cbn [negb].
  by rewrite (bucket_truthy _ _ H), (path_truthy _ _ H).
Qed.

(** X12: an object named by bucket and path resolves to the same URL
    whether it is written [bucket/path] or with [public/],
    [storage/v1/object/] or [storage/v1/object/public/] in front, with or
    without a leading slash: the URL the storage client gives, or else the
    one put together from the project URL. *)
Theorem ensureModelUrl_spellings_agree (b p s : jsstring) :
  object_name b p ->
  s ∈ spellings b p ->
  ensureModelUrl (Some s) = object_url b p.
Proof.
  intros H Hs. pose proof (bucket_head _ _ H) as Hhead.
  pose proof (bucket_truthy _ _ H) as Hb.
  assert (Hb47 : stripLeadingSlashes (b ++ 47%N :: p) = b ++ 47%N :: p).
  { pose proof (bucket_no_slash _ _ H) as Hn. unfold no_slash in Hn.
    destruct b as [|c b]; [done |]. simpl in *.
    apply andb_true_iff in Hn as [Hc _]. apply negb_true_iff in Hc. by rewrite Hc. }
  assert (Hnonempty : forall pre, truthy (pre ++ b ++ 47%N :: p) = true).
  { intros pre. destruct pre; [by destruct b | done]. }
  unfold spellings in Hs. apply list_elem_of_In in Hs. cbn [In] in Hs.
  destruct Hs as [<- | [<- | [<- | [<- | [<- | [<- | [<- | []]]]]]]].
  - apply (resolve_spelling _ b p H).
    + apply (spelling_tight b p [] H). simpl. by destruct b.
    + apply H.
    + rewrite Hb47. apply (storage_match_name b p [] H). by left.
    + rewrite Hb47. apply (Hnonempty []).
  - apply (resolve_spelling _ b p H).
    + by apply (spelling_tight b p (js "/") H).
    + reflexivity.
    + change (stripLeadingSlashes (js "/" ++ b ++ 47%N :: p))
        with (stripLeadingSlashes (b ++ 47%N :: p)).
      rewrite Hb47. apply (storage_match_name b p [] H). by left.
    + change (stripLeadingSlashes (js "/" ++ b ++ 47%N :: p))
        with (stripLeadingSlashes (b ++ 47%N :: p)).
      rewrite Hb47. apply (Hnonempty []).
  - apply (resolve_spelling _ b p H).
    + by apply (spelling_tight b p (js "public/") H).
    + reflexivity.
    + apply (storage_match_name b p (js "public/") H). set_solver.
    + reflexivity.
  - apply (resolve_spelling _ b p H).
    + by apply (spelling_tight b p (js "/public/") H).
    + reflexivity.
    + apply (storage_match_name b p (js "public/") H). set_solver.
    + reflexivity.
  - apply (resolve_spelling _ b p H).
    + by apply (spelling_tight b p (js "storage/v1/object/") H).
    + reflexivity.
    + apply (storage_match_name b p (js "storage/v1/object/") H). set_solver.
    + reflexivity.
  - apply (resolve_spelling _ b p H).
    + by apply (spelling_tight b p (js "storage/v1/object/public/") H).
    + reflexivity.
    + apply (storage_match_name b p (js "storage/v1/object/public/") H). set_solver.
    + reflexivity.
  - apply (resolve_spelling _ b p H).
    + by apply (spelling_tight b p (js "/storage/v1/object/public/") H).
    + reflexivity.
    + apply (storage_match_name b p (js "storage/v1/object/public/") H). set_solver.
    + reflexivity.
Qed.

End Storage.

(** A project whose URL ends in a slash, a storage client that answers
    nothing and one that answers for every object. *)
Definition sample_project : option jsstring := Some (js "https://dti.supabase.co/").
Definition silent_client : jsstring -> jsstring -> option jsstring := fun _ _ => None.
Definition answering_client : jsstring -> jsstring -> option jsstring :=
  fun b p => Some (js "https://cdn.example/" ++ b ++ js "/" ++ p).

Lemma ensureModelUrl_needs_a_slash_witness :
  no_slash (js "model.glb")
  /\ ensureModelUrl sample_project answering_client (Some (js "model.glb")) = None.
Proof.
  split; [reflexivity |].
  apply (ensureModelUrl_needs_a_slash sample_project answering_client (js "model.glb")).
  reflexivity.
Defined.

Lemma ensureModelUrl_absolute_witness :
  ensureModelUrl None silent_client (Some (js "  HTTPS://cdn.example/m.glb "))
  = Some (js "HTTPS://cdn.example/m.glb").
Proof.
  apply (ensureModelUrl_absolute None silent_client
           (js "  ") (js "HTTPS://cdn.example/m.glb") (js " "));
    reflexivity || (split; reflexivity).
Defined.

Lemma ensureModelUrl_spellings_agree_witness :
  ensureModelUrl sample_project silent_client
    (Some (js "/storage/v1/object/public/avatars/u1/m.glb"))
  = Some (js "https://dti.supabase.co/storage/v1/object/public/avatars/u1/m.glb").
Proof.
  apply (ensureModelUrl_spellings_agree sample_project silent_client
           (js "avatars") (js "u1/m.glb")
           (js "/storage/v1/object/public/avatars/u1/m.glb")).
  - split; try reflexivity; discriminate.
  - unfold spellings. do 6 apply list_elem_of_further. apply list_elem_of_here.
Defined.

End ModelUrl.

(** ** More of hooks/useLiveStream.ts *)

Module LiveStreamFacts.
Import LiveStream.

(** *** The handlers not covered so far *)

(** A render commits: [cleanupPeer] is the same function in every render, so
    for one user the effect is torn down and set up again when
    [isPublishing] differs from the value of the render before. *)
Definition rerender (previous : bool) (h : Hook) : Hook :=
  if bool_decide (isPublishing h = previous) then h else effectCleanup h.

(** [startPublishingCamera] from where [getUserMedia] has settled:
    [granted] tells whether it gave a stream. *)
Definition startPublishingCamera_resume (granted : bool) (h : Hook) : Hook :=
  if granted then setIsPublishing true (setLocalStream true h) else h.

(** [startPublishingCamera], a callback of the render in which
    [isPublishing] was [rendered], with nothing happening while it waits for
    the camera. *)
Definition startPublishingCamera (rendered granted : bool) (h : Hook) : Hook :=
  if rendered then h else startPublishingCamera_resume granted h.

(** [PeerConnectionManager.handleAnswer] and [handleCandidate]: whether the
    message reaches a connection. *)
Definition handleAnswer (m : PeerConnectionManager.t) : bool :=
  PeerConnectionManager.peer m.

Definition handleCandidate (m : PeerConnectionManager.t) : bool :=
  PeerConnectionManager.peer m.

(** [handleSignalingAnswer]: the manager whose connection takes the answer,
    if any.  It reads refs only. *)
Definition handleSignalingAnswer (user : jsstring) (payload : option Signal)
    (h : Hook) : option nat :=
  match payload with
  | None => None
  | Some s =>
      if eqb (fromUserId s) user then None
      else if match targetUserId s with
              | Some t => truthy t && negb (eqb t user)
              | None => false
              end then None
      else if negb (bool_decide (peerRoleRef h = Some viewer))
              || negb (bool_decide (is_Some (peerRef h))) then None
      else
        i ← peerRef h; m ← objects h !! i;
        if handleAnswer m then Some i else None
  end.

(** [handleSignalingIce]: the manager whose connection takes the candidate,
    if any.  It reads refs only. *)
Definition handleSignalingIce (user : jsstring) (payload : option Signal)
    (h : Hook) : option nat :=
  match payload with
  | None => None
  | Some s =>
      if eqb (fromUserId s) user then None
      else if match targetUserId s with
              | Some t => truthy t && negb (eqb t user)
              | None => false
              end then None
      else if negb (bool_decide (is_Some (peerRef h))) then None
      else
        i ← peerRef h; m ← objects h !! i;
        if handleCandidate m then Some i else None
  end.

(** What can happen to a mounted hook.  A handler or callback comes with the
    value of [isPublishing] that its render had. *)
Inductive Event :=
  | StreamStarted (userId : jsstring)
  | StreamStopped
  | Offer (rendered : bool) (payload : option Signal)
  | OwnerEffect
  | RemoteTrack
  | CameraSettled (granted : bool)
  | StopPublishing (rendered : bool)
  | Rerender (previous : bool).

Definition step (user : jsstring) (h : Hook) (e : Event) : Hook :=
  match e with
  | StreamStarted userId => handleStreamStarted user userId h
  | StreamStopped => handleStreamStopped h
  | Offer rendered payload => handleSignalingOffer user rendered payload h
  | OwnerEffect => ownerEffect user h
  | RemoteTrack => setRemoteStream true h
  | CameraSettled granted => startPublishingCamera_resume granted h
  | StopPublishing rendered => stopPublishing rendered h
  | Rerender previous => rerender previous h
  end.

Definition run (user : jsstring) (evs : list Event) (h : Hook) : Hook :=
  fold_left (step user) evs h.

(** The refs agree with the manager they hold, and that manager is live. *)
Definition consistent (user : jsstring) (h : Hook) : Prop :=
  match peerRef h with
  | Some i =>
      exists m, objects h !! i = Some m
                /\ PeerConnectionManager.peer m = true
                /\ PeerConnectionManager.userId m = user
                /\ peerRoleRef h = Some (PeerConnectionManager.role m)
                /\ targetRef h = Some (PeerConnectionManager.target m)
  | None => peerRoleRef h = None /\ targetRef h = None
  end.

(** A manager that was closed. *)
Definition closed_at (h : Hook) (i : nat) : Prop :=
  exists m, objects h !! i = Some m /\ PeerConnectionManager.peer m = false.

(** A message from another user that is addressed to this one, or to
    nobody. *)
Definition reaches (user : jsstring) (s : Signal) : Prop :=
  fromUserId s <> user
  /\ match targetUserId s with
     | Some t => truthy t = true -> t = user
     | None => True
     end.

(** *** The camera of a publisher *)

Lemma effectCleanup_refs (h : Hook) :
  localStreamRef (effectCleanup h) = false
  /\ peerRef (effectCleanup h) = None
  /\ peerRoleRef (effectCleanup h) = None
  /\ targetRef (effectCleanup h) = None
  /\ isPublishing (effectCleanup h) = isPublishing h.
Proof.
  unfold effectCleanup. cbn [cleanupPeer localStreamRef].
  destruct (localStreamRef h) eqn:E; simpl; by rewrite ?E.
Qed.

Lemma handleSignalingOffer_without_camera (user : jsstring) (rendered : bool)
    (payload : option Signal) (h : Hook) :
  localStreamRef h = false \/ rendered = false ->
  handleSignalingOffer user rendered payload h = h.
Proof.
  intros H. unfold handleSignalingOffer. destruct payload as [s|]; [|done].
  assert (Hg : negb rendered || negb (localStreamRef h) = true).
  { destruct H as [-> | ->]; [apply orb_true_r | done]. }
  rewrite Hg. by repeat case_match.
Qed.

(** X13: when a client that is not publishing starts its camera, the call
    stores the stream and sets [isPublishing]; the render that follows tears
    the effect down, which drops that stream again.  The client then counts
    as publishing but holds no camera, and it lets every offer pass
    unanswered, whichever render the handler that takes the offer is
    from. *)
Theorem published_camera_released_by_rerender (user : jsstring) (h : Hook)
    (rendered : bool) (payload : option Signal) :
  isPublishing h = false ->
  let started := startPublishingCamera (isPublishing h) true h in
  let shown := rerender (isPublishing h) started in
  (localStreamRef started = true /\ isPublishing started = true)
  /\ (localStreamRef shown = false /\ isPublishing shown = true
      /\ peerRef shown = None)
  /\ handleSignalingOffer user rendered payload shown = shown.
Proof.
  intros Hp started shown.
  assert (Hs : started = setIsPublishing true (setLocalStream true h)).
  { unfold started, startPublishingCamera. by rewrite Hp. }
  assert (Hshown : shown = effectCleanup started).
  { unfold shown, rerender. rewrite Hp, Hs. done. }
  destruct (effectCleanup_refs started) as (Hc & Hr & _ & _ & Hi).
  split; [by rewrite Hs |]. split.
  - rewrite Hshown, Hc, Hr, Hi, Hs. done.
  - apply handleSignalingOffer_without_camera. left. by rewrite Hshown.
Qed.

Lemma published_camera_released_by_rerender_witness :
  let started := startPublishingCamera false true initial in
  let shown := rerender false started in
  (localStreamRef started = true /\ isPublishing started = true)
  /\ (localStreamRef shown = false /\ isPublishing shown = true
      /\ peerRef shown = None)
  /\ handleSignalingOffer (js "user-p0") true (Some (offer_from "user-p1")) shown = shown.
Proof.
  apply (published_camera_released_by_rerender (js "user-p0") initial true
           (Some (offer_from "user-p1"))).
  reflexivity.
Defined.

(** *** After a teardown *)

Lemma reaches_guards (user : jsstring) (s : Signal) :
  reaches user s ->
  eqb (fromUserId s) user = false
  /\ match targetUserId s with
     | Some t => truthy t && negb (eqb t user)
     | None => false
     end = false.
Proof.
  intros [Hfrom Hto]. unfold eqb. split; [by apply bool_decide_eq_false_2 |].
  destruct (targetUserId s) as [t|]; [|done].
  destruct (truthy t); [|done]. rewrite (Hto eq_refl).
  by rewrite (bool_decide_eq_true_2 (user = user)).
Qed.

Lemma teardown_refs (h torn : Hook) :
  torn ∈ teardowns h ->
  objects torn = objects (cleanupPeer h)
  /\ peerRef torn = None /\ peerRoleRef torn = None.
Proof.
  intros H. apply list_elem_of_In in H. simpl in H.
  destruct H as [<- | [<- | [<- | []]]]; try done.
  destruct (effectCleanup_refs h) as (_ & ? & ? & _).
  split; [|done]. unfold effectCleanup. by destruct (localStreamRef (cleanupPeer h)).
Qed.

(** The teardowns that leave no camera: [stopPublishing] on a publishing
    client, the cleanup of the effect, and [stream:stopped] once the render
    that follows it on a publishing client has run. *)
Definition camera_dropped (h : Hook) : list Hook :=
  [stopPublishing true h; effectCleanup h; rerender true (handleStreamStopped h)].

(** X14: after [stream:stopped], after [stopPublishing] on a publishing
    client and after the cleanup of the effect, the manager that was current
    is closed, every other manager is as it was, and no connection takes an
    answer or a candidate.  An offer is let pass by every handler after
    [stopPublishing] and after the cleanup, which drop the camera.  After
    [stream:stopped], which keeps the camera, it is let pass by a handler
    whose render was not publishing, and by every handler once the render
    that follows has run; until then the handler of a publishing render
    still answers an offer and creates a session. *)
Theorem teardown_ignores_signaling (user : jsstring) (h : Hook)
    (payload : option Signal) :
  (forall torn,
     torn ∈ teardowns h ->
     (forall i, peerRef h = Some i -> (i < length (objects h))%nat -> closed_at torn i)
     /\ (forall j, peerRef h <> Some j -> objects torn !! j = objects h !! j)
     /\ handleSignalingAnswer user payload torn = None
     /\ handleSignalingIce user payload torn = None
     /\ handleSignalingOffer user false payload torn = torn)
  /\ (forall torn rendered,
        torn ∈ camera_dropped h ->
        handleSignalingOffer user rendered payload torn = torn)
  /\ (forall s,
        reaches user s -> localStreamRef h = true ->
        let stopped := handleStreamStopped h in
        handleSignalingOffer user true (Some s) stopped
        = install (live_host user (fromUserId s)) host (fromUserId s) stopped).
Proof.
  split; [|split].
  - intros torn Ht. destruct (teardown_refs h torn Ht) as (Hobj & Hr & Hrole).
    split; [|split; [|split; [|split]]].
    + intros i Hi Hlen. apply lookup_lt_is_Some in Hlen as [m Hm].
      exists (PeerConnectionManager.close m). split; [|done].
      rewrite Hobj. by apply cleanupPeer_closes.
    + intros j Hj. rewrite Hobj. by apply cleanupPeer_others.
    + unfold handleSignalingAnswer. destruct payload as [s|]; [|done].
      rewrite Hr, Hrole. by repeat case_match.
    + unfold handleSignalingIce. destruct payload as [s|]; [|done].
      rewrite Hr. by repeat case_match.
    + apply handleSignalingOffer_without_camera. by right.
  - intros torn rendered Ht. apply handleSignalingOffer_without_camera. left.
    apply list_elem_of_In in Ht. simpl in Ht.
    destruct Ht as [<- | [<- | [<- | []]]].
    + done.
    + apply effectCleanup_refs.
    + unfold rerender. cbn [handleStreamStopped isPublishing setRemoteStream cleanupPeer
                            setIsPublishing setStreamOwnerId].
      rewrite bool_decide_eq_false_2 by done. apply effectCleanup_refs.
  - intros s Hs Hcam stopped. apply handleSignalingOffer_accepted.
    destruct Hs as [Hfrom Hto]. by repeat split.
Qed.

Lemma teardown_ignores_signaling_witness :
  let stopped := handleStreamStopped publishing in
  handleSignalingOffer (js "user-p0") true (Some (offer_from "user-p1")) stopped
  = install (live_host (js "user-p0") (js "user-p1")) host (js "user-p1") stopped.
Proof.
  intros stopped.
  apply (teardown_ignores_signaling (js "user-p0") publishing
           (Some (offer_from "user-p1"))).
  - split; vm_compute; congruence.
  - reflexivity.
Defined.

(** *** Where answers and candidates go *)

Lemma install_lookup (m : PeerConnectionManager.t) (r : PeerRole) (to : jsstring)
    (h : Hook) :
  objects (install m r to h) !! length (objects h) = Some m.
Proof. simpl. by rewrite lookup_app_r, Nat.sub_diag. Qed.

Lemma install_refs (m : PeerConnectionManager.t) (r : PeerRole) (to : jsstring)
    (h : Hook) :
  peerRef (install m r to h) = Some (length (objects h))
  /\ peerRoleRef (install m r to h) = Some r
  /\ targetRef (install m r to h) = Some to.
Proof. done. Qed.

(** X15: once a publisher accepted the offer of a viewer, a candidate that
    reaches it from any user, the viewer or another, goes to the session of
    that viewer, the current one, and an answer reaches no connection of a
    publisher. *)
Theorem candidates_go_to_current_session (user : jsstring) (rendered : bool)
    (offer msg : Signal) (h : Hook) :
  accepts user rendered offer h ->
  reaches user msg ->
  let h' := handleSignalingOffer user rendered (Some offer) h in
  handleSignalingIce user (Some msg) h' = Some (length (objects h))
  /\ (PeerConnectionManager.target <$> objects h' !! length (objects h))
     = Some (fromUserId offer)
  /\ handleSignalingAnswer user (Some msg) h' = None.
Proof.
  intros Hacc Hmsg h'. unfold h'.
  rewrite (handleSignalingOffer_accepted _ _ _ _ Hacc).
  destruct (reaches_guards user msg Hmsg) as [Hfrom Hto].
  unfold handleSignalingIce, handleSignalingAnswer. rewrite Hfrom, Hto.
  destruct (install_refs (live_host user (fromUserId offer)) host (fromUserId offer) h)
    as (-> & -> & _).
  rewrite bool_decide_eq_true_2 by eauto.
  cbn [negb orb mbind option_bind]. rewrite !install_lookup. done.
Qed.

Lemma candidates_go_to_current_session_witness :
  let first :=
    handleSignalingOffer (js "user-p0") true (Some (offer_from "user-p1")) publishing in
  let second :=
    handleSignalingOffer (js "user-p0") true (Some (offer_from "user-p2")) first in
  handleSignalingIce (js "user-p0") (Some (offer_from "user-p1")) second = Some 1%nat
  /\ (PeerConnectionManager.target <$> objects second !! 1%nat) = Some (js "user-p2")
  /\ handleSignalingAnswer (js "user-p0") (Some (offer_from "user-p1")) second = None.
Proof.
  intros first second.
  apply (candidates_go_to_current_session (js "user-p0") true (offer_from "user-p2")
           (offer_from "user-p1") first).
  - repeat split; vm_compute; congruence.
  - split; vm_compute; congruence.
Defined.

(** *** The current manager *)

Lemma consistent_install (user to : jsstring) (m : PeerConnectionManager.t)
    (h : Hook) :
  PeerConnectionManager.peer m = true ->
  PeerConnectionManager.userId m = user ->
  PeerConnectionManager.target m = to ->
  consistent user (install m (PeerConnectionManager.role m) to h).
Proof.
  intros Hp Hu Ht. unfold consistent.
  destruct (install_refs m (PeerConnectionManager.role m) to h) as (-> & -> & ->).
  exists m. rewrite install_lookup. by rewrite Ht.
Qed.

Lemma consistent_requestViewerConnection (user ownerId : jsstring) (h : Hook) :
  consistent user (requestViewerConnection user ownerId h).
Proof. by apply (consistent_install user ownerId (live_viewer user ownerId)). Qed.

Lemma consistent_cleanupPeer (user : jsstring) (h : Hook) :
  consistent user (cleanupPeer h).
Proof. done. Qed.

Lemma consistent_state (user : jsstring) (h h' : Hook) :
  objects h' = objects h -> peerRef h' = peerRef h ->
  peerRoleRef h' = peerRoleRef h -> targetRef h' = targetRef h ->
  consistent user h -> consistent user h'.
Proof. unfold consistent. by intros -> -> -> ->. Qed.

Lemma consistent_step (user : jsstring) (h : Hook) (e : Event) :
  consistent user h -> consistent user (step user h e).
Proof.
  intros H.
  destruct e as [userId | | rendered payload | | | granted | rendered | previous]; simpl.
  - unfold handleStreamStarted. case_match.
    + apply consistent_requestViewerConnection.
    + by apply (consistent_state user h).
  - by apply (consistent_state user (cleanupPeer h)).
  - unfold handleSignalingOffer. repeat case_match; try done;
      by apply (consistent_install user _ (live_host user _)).
  - unfold ownerEffect. repeat case_match; try done;
      apply consistent_requestViewerConnection.
  - by apply (consistent_state user h).
  - unfold startPublishingCamera_resume. destruct granted; [|done].
    by apply (consistent_state user h).
  - unfold stopPublishing. case_match; [done |].
    by apply (consistent_state user (cleanupPeer h)).
  - unfold rerender, effectCleanup. by repeat case_match.
Qed.

(** X16: whatever happens to a mounted hook, in any order and with handlers
    of whatever render, the manager in [peerRef] holds a live connection of
    this user, and [peerRoleRef] and [targetRef] name its role and its
    counterpart; when [peerRef] is empty so are the other two. *)
Theorem current_manager_is_live (user : jsstring) (evs : list Event) :
  consistent user (run user evs initial).
Proof.
  assert (H : forall h, consistent user h -> consistent user (run user evs h)).
  { induction evs as [|e evs IH]; intros h Hh; [done |].
    simpl. apply IH. by apply consistent_step. }
  apply H. done.
Qed.

End LiveStreamFacts.

(** ** screens/ScoreboardScreen.tsx *)

Module ScoreboardScreen.

(** [[...standings].sort((left, right) => right.score - left.score)]. *)
Definition orderedStandings (standings : list Player.t) : list Player.t :=
  JsArray.sort (fun left right => Player.score right - Player.score left) standings.

(** [orderedStandings[0]]: [None] is [undefined]. *)
Definition winner (standings : list Player.t) : option Player.t :=
  JsArray.at_index (orderedStandings standings) 0.

(** [Math.max(0, 3 - game.round)], of the version of the screen that plays
    three rounds. *)
Definition remainingRounds (game : Game.t) : Z := Z.max 0 (3 - Game.round game).

(** The text under the standings. *)
Inductive Footer :=
| Vainqueur (email : jsstring)
| Egalite_parfaite
| Rounds_restants (n : Z).

(** [winner ? `Vainqueur : ${winner.user_email}` : 'Égalité parfaite !'], the
    footer of the screen as [screens/ScoreboardScreen.tsx] has it. *)
Definition footer (standings : list Player.t) : Footer :=
  match winner standings with
  | Some w => Vainqueur (Player.user_email w)
  | None => Egalite_parfaite
  end.

(** The footer of the version that plays three rounds: the rounds that
    remain, and the line on the winner once none remains. *)
Definition footer_of_three_rounds (game : Game.t) (standings : list Player.t) : Footer :=
  if remainingRounds game >? 0 then Rounds_restants (remainingRounds game)
  else footer standings.

(** Descending by score is ascending by the negated score. *)
Definition debit (p : Player.t) : Z := - Player.score p.

Lemma sorted_weaken {A : Type} (R1 R2 : A -> A -> Prop) (l : list A) :
  (forall x y, R1 x y -> R2 x y) -> StronglySorted R1 l -> StronglySorted R2 l.
Proof.
  intros H. induction 1 as [|p l _ IH Hall]; constructor; [exact IH |].
  eapply Forall_impl; [exact Hall | apply H].
Qed.

Lemma orderedStandings_by_debit (standings : list Player.t) :
  orderedStandings standings = JsArray.sort (JsArray.by_key debit) standings.
Proof. apply JsArray.sort_ext. intros x y _ _. unfold JsArray.by_key, debit. lia. Qed.

(** X17: the standings are shown from the highest score down, and of two
    players with the same score the one that comes first in the fetched list
    is shown first.  The winner is the first player of the fetched list that
    has the highest score.  Where the footer has the line on the winner it
    names one as soon as there is one player, so the line for a perfect tie
    shows for an empty list only, never for players that are tied: that is
    always in [screens/ScoreboardScreen.tsx], and from round 3 on in the
    version that plays three rounds, which before shows the number of rounds
    that remain, [3 - round], and no winner. *)
Theorem winner_is_first_top_scorer (game : Game.t) (standings : list Player.t) :
  orderedStandings standings ≡ₚ standings
  /\ StronglySorted (fun p q => Player.score q <= Player.score p)
       (orderedStandings standings)
  /\ (forall score,
        filter (fun p => Player.score p = score) (orderedStandings standings)
        = filter (fun p => Player.score p = score) standings)
  /\ match winner standings with
     | Some w =>
         w ∈ standings
         /\ (forall p, p ∈ standings -> Player.score p <= Player.score w)
         /\ head (filter (fun p => Player.score p = Player.score w) standings) = Some w
         /\ footer standings = Vainqueur (Player.user_email w)
     | None => standings = [] /\ footer standings = Egalite_parfaite
     end
  /\ footer_of_three_rounds game standings
     = if Game.round game <? 3 then Rounds_restants (3 - Game.round game)
       else footer standings.
Proof.
  assert (Hfooter : footer_of_three_rounds game standings
                    = if Game.round game <? 3 then Rounds_restants (3 - Game.round game)
                      else footer standings).
  { unfold footer_of_three_rounds, remainingRounds.
    destruct (Game.round game <? 3) eqn:E.
    - apply Z.ltb_lt in E. rewrite Z.max_r by lia.
      by rewrite (proj2 (Z.gtb_gt _ _)) by lia.
    - apply Z.ltb_ge in E. rewrite Z.max_l by lia. done. }
  pose proof (JsArray.sort_perm (JsArray.by_key debit) standings) as Hperm.
  pose proof (JsArray.sort_sorted debit standings) as Hsorted.
  assert (Hstable : forall score,
            filter (fun p => Player.score p = score) (orderedStandings standings)
            = filter (fun p => Player.score p = score) standings).
  { intros score. rewrite orderedStandings_by_debit.
    rewrite (list_filter_iff (fun p => Player.score p = score)
               (fun p => debit p = - score)) by (intros p; unfold debit; lia).
    rewrite (list_filter_iff (fun p => Player.score p = score)
               (fun p => debit p = - score) standings) by (intros p; unfold debit; lia).
    apply JsArray.sort_stable. }
  rewrite <- orderedStandings_by_debit in Hperm, Hsorted.
  split; [exact Hperm |]. split.
  { apply (sorted_weaken (JsArray.key_le debit)); [|exact Hsorted].
    intros p q. unfold JsArray.key_le, debit. lia. }
  split; [exact Hstable |]. split; [|exact Hfooter]. clear Hfooter.
  unfold footer, winner, JsArray.at_index. simpl.
  destruct (orderedStandings standings) as [|w rest] eqn:Ho; simpl.
  - split; [|done]. apply Permutation_nil_l in Hperm. done.
  - split; [rewrite <- Hperm; by left |]. split; [|split; [|done]].
    + intros p Hp. rewrite <- Hperm in Hp.
      apply elem_of_cons in Hp as [-> | Hp]; [lia |].
      apply StronglySorted_inv in Hsorted as [_ Hall].
      rewrite Forall_forall in Hall. specialize (Hall p Hp).
      unfold JsArray.key_le, debit in Hall. lia.
    + rewrite <- Hstable. rewrite filter_cons.
      by destruct (decide (Player.score w = Player.score w)).
Qed.

End ScoreboardScreen.

(** ** screens/RatingScreen.tsx: the entries of a round *)

Module Entries.

(** An [Entry] row, with the [created_at] column that the reducer reads. *)
Record Entry := {
  id : jsstring;
  player_id : option jsstring;
  user_id : option jsstring;
  model_glb_url : option jsstring;
  created_at : option jsstring;
}.

(** [a ?? b]. *)
Definition nullish {A : Type} (a b : option A) : option A :=
  match a with Some x => Some x | None => b end.

Section Reduce.

(** [Date.parse]: [None] is [NaN]. *)
Variable Date_parse : jsstring -> option Z.

(** [Date.now()] as read while the entry at a position is handled. *)
Variable Date_now : nat -> Z.

(** [model_glb_url] and [avatar_glb_url] of a player row, which the [Player]
    type does not declare. *)
Variable model_glb_url_of : Player.t -> option jsstring.
Variable avatar_glb_url_of : Player.t -> option jsstring.

Variable SUPABASE_PROJECT_URL : option jsstring.
Variable getPublicUrl : jsstring -> jsstring -> option jsstring.

#[local] Abbreviation ensureModelUrl :=
  (ModelUrl.ensureModelUrl SUPABASE_PROJECT_URL getPublicUrl).

(** The turn order that the effect closes over. *)
Variable sortedPlayers : list Player.t.

Definition matchingPlayer (entry : Entry) : option Player.t :=
  nullish
    (List.find (fun player => bool_decide (Some (Player.id player) = player_id entry))
       sortedPlayers)
    (List.find (fun player => bool_decide (Some (Player.user_id player) = user_id entry))
       sortedPlayers).

Definition normalized (matching : Player.t) (entry : Entry) : Entry :=
  let resolved :=
    ensureModelUrl
      (nullish (model_glb_url entry)
         (nullish (model_glb_url_of matching) (avatar_glb_url_of matching))) in
  {| id := id entry; player_id := player_id entry; user_id := user_id entry;
     model_glb_url := nullish resolved (model_glb_url entry);
     created_at := created_at entry |}.

(** [Date.parse((entry as any).created_at ?? '')]. *)
Definition parsed (entry : Entry) : option Z :=
  Date_parse (default [] (created_at entry)).

Definition existingCreated (existing : option Entry) : option Z :=
  match existing with
  | Some e => parsed e
  | None => Some 0
  end.

(** [Date.parse(...) || Date.now()]: [NaN] and [0] give way to the clock. *)
Definition currentCreated (now : Z) (entry : Entry) : Z :=
  match parsed entry with
  | Some t => if t =? 0 then now else t
  | None => now
  end.

(** The callback of the [reduce]. *)
Definition collect (now : Z) (acc : gmap jsstring Entry) (entry : Entry)
    : gmap jsstring Entry :=
  match matchingPlayer entry with
  | Some matching =>
      let existing := acc !! Player.id matching in
      if negb (bool_decide (is_Some existing))
         || match existingCreated existing with
            | Some t => currentCreated now entry >=? t
            | None => false
            end
      then <[Player.id matching := normalized matching entry]> acc
      else acc
  | None => acc
  end.

Fixpoint reduce_from (i : nat) (data : list Entry) (acc : gmap jsstring Entry)
    : gmap jsstring Entry :=
  match data with
  | [] => acc
  | entry :: rest => reduce_from (S i) rest (collect (Date_now i) acc entry)
  end.

(** [fetchEntries], once the query has settled with [data]: the map that is
    given to [setEntriesByPlayer], and [None] when nothing is set. *)
Definition fetchEntries (data : option (list Entry)) : option (gmap jsstring Entry) :=
  (fun rows => reduce_from 0 rows ∅) <$> data.

(** The entry is one of the player whose id is [k]. *)
Definition entry_of (k : jsstring) (entry : Entry) : Prop :=
  exists matching, matchingPlayer entry = Some matching /\ Player.id matching = k.

(** The entry carries a time that parses, and not to zero. *)
Definition dated (entry : Entry) : Prop :=
  exists t, parsed entry = Some t /\ t <> 0.

Definition stamp (entry : Entry) : Z := default 0 (parsed entry).

(** What the map holds once the entries of [seen] went in. *)
Definition latest_of (seen : list Entry) (acc : gmap jsstring Entry) : Prop :=
  forall k,
    match acc !! k with
    | Some kept =>
        exists entry matching,
          entry ∈ seen /\ matchingPlayer entry = Some matching
          /\ Player.id matching = k
          /\ kept = normalized matching entry
          /\ forall other, other ∈ seen -> entry_of k other -> stamp other <= stamp entry
    | None => forall other, other ∈ seen -> ~ entry_of k other
    end.

Lemma entry_of_dec (k : jsstring) (entry : Entry) :
  entry_of k entry \/ ~ entry_of k entry.
Proof.
  unfold entry_of. destruct (matchingPlayer entry) as [p|]; cycle 1.
  { right. by intros (q & Hq & _). }
  destruct (decide (Player.id p = k)) as [E | E]; [left; by exists p |].
  right. intros (q & Hq & Hid). congruence.
Qed.

(** *** Entries without a time *)

Lemma collect_other (now : Z) (acc : gmap jsstring Entry) (entry : Entry) (k : jsstring) :
  ~ entry_of k entry -> collect now acc entry !! k = acc !! k.
Proof.
  intros Hk. unfold collect. destruct (matchingPlayer entry) as [p|] eqn:Hm; [|done].
  case_match; [|done]. apply lookup_insert_ne. intros E. apply Hk. by exists p.
Qed.

Lemma collect_undated (now : Z) (acc : gmap jsstring Entry) (entry kept : Entry)
    (k : jsstring) :
  acc !! k = Some kept -> parsed kept = None ->
  collect now acc entry !! k = Some kept.
Proof.
  intros Hk Hp. unfold collect.
  destruct (matchingPlayer entry) as [p|] eqn:Hm; [|done].
  destruct (decide (Player.id p = k)) as [E | E].
  - rewrite E, Hk. cbn [existingCreated]. rewrite Hp.
    by rewrite (bool_decide_eq_true_2 (is_Some (Some kept))) by eauto.
  - case_match; [|done]. by rewrite lookup_insert_ne.
Qed.

Lemma reduce_undated (i : nat) (data : list Entry) (acc : gmap jsstring Entry)
    (kept : Entry) (k : jsstring) :
  acc !! k = Some kept -> parsed kept = None ->
  reduce_from i data acc !! k = Some kept.
Proof.
  revert i acc. induction data as [|entry rest IH]; intros i acc Hk Hp; [done |].
  simpl. apply IH; [|done]. by apply collect_undated.
Qed.

Lemma reduce_other (i : nat) (data : list Entry) (acc : gmap jsstring Entry)
    (k : jsstring) :
  (forall entry, entry ∈ data -> ~ entry_of k entry) ->
  reduce_from i data acc !! k = acc !! k.
Proof.
  revert i acc. induction data as [|entry rest IH]; intros i acc H; [done |].
  simpl. rewrite IH by (intros e He; apply H; by right).
  apply collect_other, H. by left.
Qed.

Lemma reduce_app (i : nat) (before after : list Entry) (acc : gmap jsstring Entry) :
  reduce_from i (before ++ after) acc
  = reduce_from (i + length before) after (reduce_from i before acc).
Proof.
  revert i acc. induction before as [|entry rest IH]; intros i acc; simpl.
  - by rewrite Nat.add_0_r.
  - rewrite IH. f_equal. lia.
Qed.

(** X18: when the first entry fetched for a player has no [created_at], or
    one that does not parse, that entry is the one shown for the player:
    none of the entries fetched after it replaces it, whatever their
    times. *)
Theorem undated_entry_is_never_replaced (before after : list Entry) (entry : Entry)
    (matching : Player.t) :
  matchingPlayer entry = Some matching ->
  (forall earlier, earlier ∈ before -> ~ entry_of (Player.id matching) earlier) ->
  parsed entry = None ->
  exists map,
    fetchEntries (Some (before ++ entry :: after)) = Some map
    /\ map !! Player.id matching = Some (normalized matching entry).
Proof.
  intros Hm Hbefore Hp. eexists. split; [reflexivity |].
  rewrite reduce_app. simpl. apply reduce_undated; [|done].
  unfold collect. rewrite Hm.
  rewrite (reduce_other 0 before ∅ _ Hbefore), lookup_empty. simpl.
  by rewrite lookup_insert_eq.
Qed.

(** *** Entries with a time *)

Lemma dated_stamp (entry : Entry) :
  dated entry ->
  parsed entry = Some (stamp entry) /\ forall now, currentCreated now entry = stamp entry.
Proof.
  intros (t & Ht & Hz). unfold stamp, currentCreated. rewrite Ht. simpl.
  split; [done |]. intros now. by rewrite (proj2 (Z.eqb_neq t 0) Hz).
Qed.

Lemma normalized_parsed (matching : Player.t) (entry : Entry) :
  parsed (normalized matching entry) = parsed entry.
Proof. done. Qed.

Lemma latest_of_collect (now : Z) (seen : list Entry) (acc : gmap jsstring Entry)
    (entry : Entry) :
  Forall dated seen -> dated entry ->
  latest_of seen acc -> latest_of (seen ++ [entry]) (collect now acc entry).
Proof.
  intros Hseen Hentry Hinv k. specialize (Hinv k).
  destruct (dated_stamp entry Hentry) as [Hpe Hce].
  destruct (entry_of_dec k entry) as [Hof | Hof]; cycle 1.
  { rewrite (collect_other now acc entry k Hof).
    destruct (acc !! k) as [kept|].
    - destruct Hinv as (e & p & He & Hm & Hid & Hk & Hmax).
      exists e, p. repeat split; try done; [apply elem_of_app; by left |].
      intros other Ho Hok. apply elem_of_app in Ho as [Ho | Ho]; [by apply Hmax |].
      apply list_elem_of_singleton in Ho. by subst other.
    - intros other Ho. apply elem_of_app in Ho as [Ho | Ho]; [by apply Hinv |].
      apply list_elem_of_singleton in Ho. by subst other. }
  destruct Hof as (p & Hm & Hid). unfold collect. rewrite Hm, Hid.
  assert (Hnew : forall bound,
             (forall other, other ∈ seen -> entry_of k other -> stamp other <= bound) ->
             bound <= stamp entry ->
             exists e q, e ∈ seen ++ [entry] /\ matchingPlayer e = Some q
               /\ Player.id q = k /\ normalized p entry = normalized q e
               /\ forall other, other ∈ seen ++ [entry] -> entry_of k other ->
                    stamp other <= stamp e).
  { intros bound Hb Hle. exists entry, p.
    repeat split; try done; [apply elem_of_app; right; by left |].
    intros other Ho Hok. apply elem_of_app in Ho as [Ho | Ho].
    - specialize (Hb other Ho Hok). lia.
    - apply list_elem_of_singleton in Ho. subst other. lia. }
  destruct (acc !! k) as [kept|] eqn:Hk; cbn [existingCreated].
  - destruct Hinv as (e & q & He & Hmq & Hidq & Hkept & Hmax).
    rewrite (bool_decide_eq_true_2 (is_Some (Some kept))) by eauto. cbn [negb orb].
    assert (Hde : dated e) by (rewrite Forall_forall in Hseen; by apply Hseen).
    destruct (dated_stamp e Hde) as [Hpk _].
    rewrite Hkept, normalized_parsed, Hpk, Hce.
    destruct (stamp entry >=? stamp e) eqn:Hcmp.
    + rewrite lookup_insert_eq. apply (Hnew (stamp e)); [done |].
      rewrite Z.geb_leb in Hcmp. by apply Z.leb_le.
    + rewrite Hk. exists e, q. repeat split; try done; [apply elem_of_app; by left |].
      intros other Ho Hok. apply elem_of_app in Ho as [Ho | Ho]; [by apply Hmax |].
      apply list_elem_of_singleton in Ho. subst other.
      rewrite Z.geb_leb in Hcmp. apply Z.leb_gt in Hcmp. lia.
  - rewrite (bool_decide_eq_false_2 (is_Some None)) by (by intros [? ?]). cbn [negb orb].
    rewrite lookup_insert_eq. apply (Hnew (stamp entry)); [|lia].
    intros other Ho Hok. by destruct (Hinv other Ho).
Qed.

Lemma latest_of_reduce (i : nat) (seen data : list Entry) (acc : gmap jsstring Entry) :
  Forall dated seen -> Forall dated data ->
  latest_of seen acc -> latest_of (seen ++ data) (reduce_from i data acc).
Proof.
  revert i seen acc. induction data as [|entry rest IH]; intros i seen acc Hs Hd Hinv.
  - by rewrite app_nil_r.
  - apply Forall_cons in Hd as [He Hd]. simpl.
    change (entry :: rest) with ([entry] ++ rest). rewrite app_assoc.
    apply IH; [| done | by apply latest_of_collect].
    apply Forall_app. split; [done |]. by apply Forall_singleton.
Qed.

(** X19: when every entry fetched carries a time that parses, the entry
    shown for a player is one of the entries fetched for that player, with
    its model URL resolved, and none of that player's entries is later; a
    player with no entry is not in the map, and an entry that matches no
    player of the turn order, by player id or else by user id, is left
    out. *)
Theorem fetchEntries_keeps_latest (data : list Entry) :
  Forall dated data ->
  exists map,
    fetchEntries (Some data) = Some map
    /\ forall k,
         match map !! k with
         | Some kept =>
             exists entry matching,
               entry ∈ data /\ matchingPlayer entry = Some matching
               /\ Player.id matching = k
               /\ kept = normalized matching entry
               /\ forall other, other ∈ data -> entry_of k other ->
                    stamp other <= stamp entry
         | None => forall other, other ∈ data -> ~ entry_of k other
         end.
Proof.
  intros Hd. eexists. split; [reflexivity |].
  apply (latest_of_reduce 0 [] data ∅); [done | done |].
  intros k. rewrite lookup_empty. intros other Ho. by apply elem_of_nil in Ho.
Qed.

End Reduce.

Definition entry (name : string) (player : string) (created : option jsstring) : Entry :=
  {| id := js name; player_id := Some (js player); user_id := None;
     model_glb_url := Some (js "https://cdn.example/" ++ js name ++ js ".glb");
     created_at := created |}.

Definition no_url : Player.t -> option jsstring := fun _ => None.

Definition turn_order : list Player.t :=
  [RatingScreen.P0; RatingScreen.P1; RatingScreen.P2].

Lemma undated_entry_is_never_replaced_witness :
  exists map,
    fetchEntries RatingScreen.parse_sample (fun _ => 5000) no_url no_url None ModelUrl.silent_client
      turn_order
      (Some ([entry "e1" "p1" (Some RatingScreen.t1)]
             ++ entry "e2" "p0" None
             :: [entry "e3" "p0" (Some RatingScreen.t2)]))
    = Some map
    /\ map !! js "p0"
       = Some (normalized no_url no_url None ModelUrl.silent_client RatingScreen.P0
                 (entry "e2" "p0" None)).
Proof.
  apply (undated_entry_is_never_replaced RatingScreen.parse_sample (fun _ => 5000) no_url no_url None
           ModelUrl.silent_client turn_order
           [entry "e1" "p1" (Some RatingScreen.t1)]
           [entry "e3" "p0" (Some RatingScreen.t2)]
           (entry "e2" "p0" None) RatingScreen.P0).
  - reflexivity.
  - intros earlier He (p & Hp & Hid).
    apply list_elem_of_singleton in He. subst earlier.
    vm_compute in Hp. apply (inj Some) in Hp. subst p. vm_compute in Hid. congruence.
  - reflexivity.
Defined.

Lemma fetchEntries_keeps_latest_witness :
  exists map,
    fetchEntries RatingScreen.parse_sample (fun _ => 5000) no_url no_url None ModelUrl.silent_client
      turn_order
      (Some [entry "e1" "p0" (Some RatingScreen.t2);
             entry "e2" "p0" (Some RatingScreen.t1)])
    = Some map
    /\ forall k,
         match map !! k with
         | Some kept =>
             exists e matching,
               e ∈ [entry "e1" "p0" (Some RatingScreen.t2);
                    entry "e2" "p0" (Some RatingScreen.t1)]
               /\ matchingPlayer turn_order e = Some matching
               /\ Player.id matching = k
               /\ kept = normalized no_url no_url None ModelUrl.silent_client matching e
               /\ forall other,
                    other ∈ [entry "e1" "p0" (Some RatingScreen.t2);
                             entry "e2" "p0" (Some RatingScreen.t1)] ->
                    entry_of turn_order k other ->
                    stamp RatingScreen.parse_sample other <= stamp RatingScreen.parse_sample e
         | None =>
             forall other,
               other ∈ [entry "e1" "p0" (Some RatingScreen.t2);
                        entry "e2" "p0" (Some RatingScreen.t1)] ->
               ~ entry_of turn_order k other
         end.
Proof.
  apply (fetchEntries_keeps_latest RatingScreen.parse_sample (fun _ => 5000) no_url no_url None
           ModelUrl.silent_client turn_order).
  repeat constructor.
  - exists 2000. split; [reflexivity | lia].
  - exists 1000. split; [reflexivity | lia].
Defined.

End Entries.
